(** * vibegrep: chunking, batching, dispatch and reconciliation

    A shallow embedding of [src/vibegrep/__init__.py] and the properties of
    its core: the Chunker ([chunk_file]), the Batcher ([pack_batches]), the
    retrying call ([call_llm]), the Reconciler ([find_lines],
    [rel_from_label], [match_results]) and the dispatch loop of [main].

    Python values are modelled as follows.
    - [str] is a list of Unicode code points ([N]); [len] is the number of
      code points, as Python's [len] on a [str].
    - [int] is [Z]; list indices produced by [range] are [nat].
    - a tuple is a product, a list is a [list], a [set] of integers is a
      duplicate-insensitive [list Z] used only through membership, and a
      [dict] is an association list in insertion order with distinct keys. *)

From Stdlib Require Import String Ascii DecimalString.
From Stdlib Require Import List ZArith NArith Lia Bool Permutation Sorted.
Import ListNotations.
Open Scope Z_scope.

(** ** Python strings *)

Abbreviation char := N (only parsing).
Abbreviation str := (list N) (only parsing).

Definition of_string (s : string) : str :=
  map N_of_ascii (list_ascii_of_string s).

Definition len {A : Type} (l : list A) : Z := Z.of_nat (length l).

(** Truthiness of a Python list or string: non-empty. *)
Definition truthy {A : Type} (l : list A) : bool :=
  match l with [] => false | _ :: _ => true end.

Fixpoint str_eqb (a b : str) : bool :=
  match a, b with
  | [], [] => true
  | x :: a', y :: b' => N.eqb x y && str_eqb a' b'
  | _, _ => false
  end.

(** The line boundaries of [str.splitlines]: LF, VT, FF, CR, FS, GS, RS,
    NEL, LS and PS (CR LF counts as one boundary). *)
Definition is_linebreak (c : char) : bool :=
  existsb (N.eqb c) [10; 11; 12; 13; 28; 29; 30; 133; 8232; 8233]%N.

(** The characters [str.strip] removes ([str.isspace]). *)
Definition is_space (c : char) : bool :=
  (((9 <=? c) && (c <=? 13)) || ((28 <=? c) && (c <=? 32))
   || (c =? 133) || (c =? 160) || (c =? 5760)
   || ((8192 <=? c) && (c <=? 8202))
   || (c =? 8232) || (c =? 8233) || (c =? 8239) || (c =? 8287)
   || (c =? 12288))%N.

(** [s.splitlines(keepends)]: a character that is no boundary joins the
    line that the rest of the string starts with. *)
Fixpoint splitlines (keepends : bool) (s : str) : list str :=
  match s with
  | [] => []
  | c :: rest =>
      if is_linebreak c then
        match rest with
        | c' :: rest' =>
            if ((c =? 13) && (c' =? 10))%N
            then (if keepends then [c; c'] else []) :: splitlines keepends rest'
            else (if keepends then [c] else []) :: splitlines keepends rest
        | [] => [if keepends then [c] else []]
        end
      else
        match splitlines keepends rest with
        | [] => [[c]]
        | l :: ls => (c :: l) :: ls
        end
  end.

Fixpoint lstrip (s : str) : str :=
  match s with
  | [] => []
  | c :: r => if is_space c then lstrip r else s
  end.

Definition rstrip (s : str) : str := rev (lstrip (rev s)).

Definition strip (s : str) : str := rstrip (lstrip s).

(** [str(n)] and [f"{n}"] for an integer: its decimal digits. *)
Definition str_of_int (n : Z) : str :=
  of_string (NilZero.string_of_int (Z.to_int n)).

(** [sep.join(parts)]. *)
Fixpoint join (sep : str) (parts : list str) : str :=
  match parts with
  | [] => []
  | [p] => p
  | p :: ps => p ++ sep ++ join sep ps
  end.

(** [range(lo, hi)] over list indices. *)
Definition range (lo hi : nat) : list nat := seq lo (hi - lo).

(** [enumerate(l)], counting from [i]. *)
Fixpoint enumerate_from {A : Type} (i : Z) (l : list A) : list (Z * A) :=
  match l with
  | [] => []
  | x :: r => (i, x) :: enumerate_from (i + 1) r
  end.

Definition enumerate {A : Type} (l : list A) : list (Z * A) :=
  enumerate_from 0 l.

(** Python's ordering of strings (by code point, a prefix first) and of
    [(int, str)] tuples (first component, then second). *)
Fixpoint str_compare (a b : str) : comparison :=
  match a, b with
  | [], [] => Eq
  | [], _ :: _ => Lt
  | _ :: _, [] => Gt
  | x :: a', y :: b' =>
      match N.compare x y with
      | Eq => str_compare a' b'
      | c => c
      end
  end.

Definition str_leb (a b : str) : bool :=
  match str_compare a b with Gt => false | _ => true end.

(** ** Chunker *)

Definition MAX_CHARS : Z := 20000.

(** Chunk: (label, content, line_offset). *)
Record chunk : Type := mkChunk {
  label : str;
  content : str;
  line_offset : Z
}.

(** [f"{rel}[{start+1}:]"]. *)
Definition ranged_label (rel : str) (start : Z) : str :=
  rel ++ of_string "[" ++ str_of_int (start + 1) ++ of_string ":]".

(** The loop state of [chunk_file]: (chunks, cur, cur_len, start). *)
Definition chunker_state : Type := list chunk * list str * Z * Z.

Definition chunk_step (rel : str) (st : chunker_state) (il : Z * str)
  : chunker_state :=
  let '(chunks, cur, cur_len, start) := st in
  let '(i, line) := il in
  if (cur_len + len line >? MAX_CHARS) && truthy cur
  then (chunks ++ [mkChunk (ranged_label rel start) (concat cur) start],
        [line], len line, i)
  else (chunks, cur ++ [line], cur_len + len line, start).

Definition chunk_finish (rel : str) (st : chunker_state) : list chunk :=
  let '(chunks, cur, cur_len, start) := st in
  if truthy cur
  then chunks ++ [mkChunk (if start >? 0 then ranged_label rel start else rel)
                          (concat cur) start]
  else chunks.

Definition chunk_file (rel content : str) : list chunk :=
  if len content <=? MAX_CHARS then [mkChunk rel content 0]
  else
    let lines := splitlines true content in
    chunk_finish rel
      (fold_left (chunk_step rel) (enumerate lines) ([], [], 0, 0)).

(** ** Batcher *)

Definition batch : Type := list chunk.

(** The loop state of [pack_batches]: (batches, cur, cur_len). *)
Definition packer_state : Type := list batch * batch * Z.

Definition pack_step (st : packer_state) (c : chunk) : packer_state :=
  let '(batches, cur, cur_len) := st in
  let size := len (content c) in
  if size >? MAX_CHARS then (batches ++ [[c]], cur, cur_len)
  else if cur_len + size >? MAX_CHARS
  then ((if truthy cur then batches ++ [cur] else batches), [c], size)
  else (batches, cur ++ [c], cur_len + size).

Definition pack_finish (st : packer_state) : list batch :=
  let '(batches, cur, cur_len) := st in
  if truthy cur then batches ++ [cur] else batches.

(** The Batcher on a list of chunks. *)
Definition pack_chunks (chunks : list chunk) : list batch :=
  pack_finish (fold_left pack_step chunks ([], [], 0)).

(** A file handed to [pack_batches]: its path relative to the root and what
    [read_file] returns for it ([None] when it cannot be read). *)
Definition file : Type := str * option str.

Definition pack_file (st : packer_state) (f : file) : packer_state :=
  match snd f with
  | None => st
  | Some content => fold_left pack_step (chunk_file (fst f) content) st
  end.

Definition pack_batches (files : list file) : list batch :=
  pack_finish (fold_left pack_file files ([], [], 0)).

(** The chunks of all readable files, in file-then-chunk order. *)
Definition all_chunks (files : list file) : list chunk :=
  flat_map (fun f => match snd f with
                     | None => []
                     | Some content => chunk_file (fst f) content
                     end) files.

(** ** Dispatcher: one call with bounded retries *)

(** What [r.json()["choices"][0]["message"]] gives: an exception for a body
    of another shape, else the message, of which [msg.get("content")] is
    read. *)
Inductive message : Type :=
| BadBody
| Message (text : option str).

(** What one [httpx.post] gives: an exception of the transport (no
    response), or a response with its status code and body. *)
Inductive reply : Type :=
| TransportError
| Response (status_code : Z) (body : message).

Inductive error : Type :=
| RequestError
| HTTPStatusError (status_code : Z)
| BodyError
| UnboundLocalError.

(** How a call of [call_llm] ends: it returns a value ([None] is Python's
    [None]) or an exception leaves it. *)
Inductive outcome : Type :=
| Returned (output : option str)
| Raised (e : error).

(** What a call does to the outside: requests sent and sleeps taken. *)
Inductive effect : Type :=
| Post
| Sleep (seconds : Z).

(** [status_code in (429, 502, 503, 504)]. *)
Definition transient (status_code : Z) : bool :=
  existsb (Z.eqb status_code) [429; 502; 503; 504].

(** Whether [r.raise_for_status()] raises: httpx raises [HTTPStatusError]
    for every status outside 2xx. *)
Definition raise_for_status (status_code : Z) : bool :=
  negb ((200 <=? status_code) && (status_code <? 300)).

(** [f"Search query: {query}\n\n" + "\n".join(f"=== FILE: {l} ===\n{c}" ...)] *)
Definition user_msg (query : str) (b : batch) : str :=
  of_string "Search query: " ++ query ++ [10; 10]%N
  ++ join [10%N]
       (map (fun c => of_string "=== FILE: " ++ label c ++ of_string " ==="
                      ++ [10%N] ++ content c) b).

(** [(msg.get("content") or "").strip()] *)
Definition message_text (text : option str) : str :=
  strip (match text with
         | Some t => if truthy t then t else []
         | None => []
         end).

(** The [for attempt in range(3)] loop and the statement after it; [r] is
    the status of the last response, [log] the effects so far. *)
Fixpoint attempts (service : nat -> reply) (rng : list nat) (r : option Z)
  (log : list effect) : outcome * list effect :=
  match rng with
  | [] =>
      match r with
      | Some status_code =>
          if raise_for_status status_code
          then (Raised (HTTPStatusError status_code), log)
          else (Returned None, log)
      | None => (Raised UnboundLocalError, log)
      end
  | attempt :: rest =>
      match service attempt with
      | TransportError => (Raised RequestError, log ++ [Post])
      | Response status_code body =>
          if transient status_code
          then attempts service rest (Some status_code)
                 (log ++ [Post; Sleep (2 ^ Z.of_nat attempt)])
          else if raise_for_status status_code
          then (Raised (HTTPStatusError status_code), log ++ [Post])
          else
            match body with
            | BadBody => (Raised BodyError, log ++ [Post])
            | Message text =>
                (Returned (Some (message_text text)), log ++ [Post])
            end
      end
  end.

(** [call_llm]: the service is given by its reply to the request of each
    attempt, for the message the call sends. *)
Definition call_llm (query : str) (b : batch)
  (service : str -> nat -> reply) : outcome * list effect :=
  attempts (service (user_msg query b)) (range 0 3) None [].

Definition posts (log : list effect) : nat :=
  List.length (filter (fun e => match e with Post => true | _ => false end) log).

(** ** Reconciler *)

(** A match: (global line number, line text). *)
Definition record : Type := Z * str.

Definition mem (n : Z) (seen : list Z) : bool := existsb (Z.eqb n) seen.

(** The inner [for i in search_range] loop: the first index of the range
    that passes the test of the [if], if any. *)
Fixpoint scan (src : list str) (offset : Z) (seen : list Z) (s : str)
  (search_range : list nat) : option nat :=
  match search_range with
  | [] => None
  | i :: rest =>
      let gln := offset + Z.of_nat i + 1 in
      if str_eqb (strip (nth i src [])) s && negb (mem gln seen)
      then Some i
      else scan src offset seen s rest
  end.

(** The loop state of [find_lines]: (results, seen, idx). *)
Definition finder_state : Type := list record * list Z * nat.

(** The body of the [if]: record line [i] and move the cursor behind it. *)
Definition hit (src : list str) (offset : Z) (st : finder_state) (i : nat)
  : finder_state :=
  let '(results, seen, idx) := st in
  let gln := offset + Z.of_nat i + 1 in
  (results ++ [(gln, nth i src [])], gln :: seen, S i).

Definition find_step (src : list str) (offset : Z) (st : finder_state)
  (ml : str) : finder_state :=
  let '(results, seen, idx) := st in
  let s := strip ml in
  if negb (truthy s) then st
  else
    match scan src offset seen s (range idx (List.length src)) with
    | Some i => hit src offset st i
    | None =>
        match scan src offset seen s (range 0 (List.length src)) with
        | Some i => hit src offset st i
        | None => st
        end
    end.

Definition find_lines (content : str) (offset : Z) (matched : list str)
  : list record :=
  let src := splitlines false content in
  fst (fst (fold_left (find_step src offset) matched ([], [], 0%nat))).

(** [label[:label.index("[")] if "[" in label else label] *)
Fixpoint rel_from_label (label : str) : str :=
  match label with
  | [] => []
  | c :: rest => if (c =? 91)%N then [] else c :: rel_from_label rest
  end.

(** ** Aggregation of one batch's matches *)

Definition rec_compare (a b : record) : comparison :=
  match Z.compare (fst a) (fst b) with
  | Eq => str_compare (snd a) (snd b)
  | c => c
  end.

Definition rec_leb (a b : record) : bool :=
  match rec_compare a b with Gt => false | _ => true end.

Definition rec_eqb (a b : record) : bool :=
  Z.eqb (fst a) (fst b) && str_eqb (snd a) (snd b).

(** [set(l)], as a list without repetition. *)
Fixpoint set_of (l : list record) : list record :=
  match l with
  | [] => []
  | x :: t => if existsb (rec_eqb x) t then set_of t else x :: set_of t
  end.

Section Sorting.
Context {A : Type} (leb : A -> A -> bool).

Fixpoint insert (x : A) (l : list A) : list A :=
  match l with
  | [] => [x]
  | y :: t => if leb x y then x :: l else y :: insert x t
  end.

(** [sorted(l)]. *)
Definition sorted (l : list A) : list A := fold_right insert [] l.

End Sorting.

(** A [dict] from path to matches. *)
Definition results_map : Type := list (str * list record).

(** [results.setdefault(rel, []).extend(m)] *)
Fixpoint setdefault_extend (results : results_map) (rel : str)
  (m : list record) : results_map :=
  match results with
  | [] => [(rel, m)]
  | (k, v) :: t =>
      if str_eqb k rel then (k, v ++ m) :: t
      else (k, v) :: setdefault_extend t rel m
  end.

(** [results[rel]]. *)
Fixpoint lookup (results : results_map) (rel : str) : list record :=
  match results with
  | [] => []
  | (k, v) :: t => if str_eqb k rel then v else lookup t rel
  end.

Definition match_chunk (lines : list str) (results : results_map)
  (c : chunk) : results_map :=
  let m := find_lines (content c) (line_offset c) lines in
  if truthy m then setdefault_extend results (rel_from_label (label c)) m
  else results.

Definition match_results (output : option str) (b : batch) : results_map :=
  match output with
  | None => []
  | Some output =>
      if negb (truthy output) || negb (truthy (strip output)) then []
      else
        let lines := splitlines false output in
        let results := fold_left (match_chunk lines) b [] in
        map (fun kv => (fst kv, sorted rec_leb (set_of (snd kv)))) results
  end.

(** ** Presentation and the dispatch loop of [main] *)

(** The (path, line number, text) triples a result is printed as, in the
    order both formatters walk it: paths sorted, then the matches. *)
Definition entries (results : results_map) : list (str * record) :=
  flat_map (fun rel => map (fun m => (rel, m)) (lookup results rel))
    (sorted str_leb (map fst results)).

(** [print(f"{rel}:{n}:{line}")] *)
Definition pipe_line (e : str * record) : str :=
  fst e ++ of_string ":" ++ str_of_int (fst (snd e)) ++ of_string ":"
  ++ snd (snd e).

Definition fmt_pipe (results : results_map) : list str :=
  map pipe_line (entries results).

Definition BOLD : str := 27%N :: of_string "[1m".
Definition DIM : str := 27%N :: of_string "[2m".
Definition RESET : str := 27%N :: of_string "[0m".

(** [f"{n:>{w}}"] *)
Definition rjust (w : Z) (s : str) : str :=
  repeat 32%N (Z.to_nat (w - len s)) ++ s.

(** [max(n for n,_ in matches)]; Python raises on an empty list, which no
    result of [match_results] holds. *)
Definition max_line (matches : list record) : Z :=
  match matches with
  | [] => 0
  | m :: t => fold_left Z.max (map fst t) (fst m)
  end.

Definition tty_match (w : Z) (st : list str * Z) (m : record)
  : list str * Z :=
  let '(out, prev) := st in
  let '(n, line) := m in
  (out ++ (if (prev >=? 0) && (n - prev >? 1) then [[]] else [])
       ++ [DIM ++ rjust w (str_of_int n) ++ [9474%N] ++ RESET
           ++ of_string " " ++ line],
   n).

Definition tty_file (results : results_map) (st : list str * bool)
  (rel : str) : list str * bool :=
  let '(out, printed) := st in
  let matches := lookup results rel in
  let w := len (str_of_int (max_line matches)) in
  (out ++ (if printed then [[]] else []) ++ [BOLD ++ rel ++ RESET]
       ++ fst (fold_left (tty_match w) matches ([], -2)),
   true).

(** [fmt_tty(results, printed)]: the lines printed and the value returned. *)
Definition fmt_tty (results : results_map) (printed : bool)
  : list str * bool :=
  fold_left (tty_file results) (sorted str_leb (map fst results))
    ([], printed).

(** The state of the loop over [as_completed(futs)]: [found], [printed],
    the lines on standard output, and the failures reported on standard
    error, each as the labels and the exception the message is made of. *)
Record run_state : Type := mkRun {
  found : bool;
  printed : bool;
  stdout : list str;
  stderr : list (list str * error)
}.

(** A completed future: its batch and how the call ended. *)
Definition completion : Type := batch * outcome.

Definition main_step (is_tty : bool) (st : run_state) (fut : completion)
  : run_state :=
  match snd fut with
  | Raised e =>
      mkRun (found st) (printed st) (stdout st)
        (stderr st ++ [(map label (fst fut), e)])
  | Returned output =>
      let results := match_results output (fst fut) in
      if truthy results then
        if is_tty then
          let '(lines, printed') := fmt_tty results (printed st) in
          mkRun true printed' (stdout st ++ lines) (stderr st)
        else
          mkRun true (printed st) (stdout st ++ fmt_pipe results) (stderr st)
      else st
  end.

Definition main_loop (is_tty : bool) (completed : list completion)
  : run_state :=
  fold_left (main_step is_tty) completed (mkRun false false [] []).

(** [sys.exit(0 if found else 1)] *)
Definition exit_code (st : run_state) : Z := if found st then 0 else 1.

(** [futs = {pool.submit(call_llm, ...): b for b in batches}]: every batch
    is submitted, and each future pairs its batch with the end of its call.
    [as_completed] then yields these futures in some order. *)
Definition dispatch (query : str) (service : str -> nat -> reply)
  (batches : list batch) : list completion :=
  map (fun b => (b, fst (call_llm query b service))) batches.

(** ** The Reconciler as the specification words it

    For comparison with [find_lines]: the search looks for the first line
    that is trimmed-equal to the response line, forward from the cursor and,
    when there is none, in the whole chunk; only then is the line number
    looked up among those recorded, and a recorded one makes the response
    line a duplicate that is skipped. *)

Fixpoint scan_equal (src : list str) (s : str) (search_range : list nat)
  : option nat :=
  match search_range with
  | [] => None
  | i :: rest =>
      if str_eqb (strip (nth i src [])) s then Some i
      else scan_equal src s rest
  end.

Definition find_step_by_words (src : list str) (offset : Z)
  (st : finder_state) (ml : str) : finder_state :=
  let '(results, seen, idx) := st in
  let s := strip ml in
  if negb (truthy s) then st
  else
    let first_equal :=
      match scan_equal src s (range idx (List.length src)) with
      | Some i => Some i
      | None => scan_equal src s (range 0 (List.length src))
      end in
    match first_equal with
    | Some i =>
        if mem (offset + Z.of_nat i + 1) seen then st
        else hit src offset st i
    | None => st
    end.

Definition find_lines_by_words (content : str) (offset : Z)
  (matched : list str) : list record :=
  let src := splitlines false content in
  fst (fst (fold_left (find_step_by_words src offset) matched
              ([], [], 0%nat))).

(** * Properties *)

(** Boolean comparisons of the code, read as propositions. *)
Ltac zbool :=
  repeat match goal with
  | H : (_ >? _) = true |- _ => rewrite Z.gtb_ltb in H; apply Z.ltb_lt in H
  | H : (_ >? _) = false |- _ => rewrite Z.gtb_ltb in H; apply Z.ltb_ge in H
  | H : (_ >=? _) = true |- _ => rewrite Z.geb_leb in H; apply Z.leb_le in H
  | H : (_ >=? _) = false |- _ => rewrite Z.geb_leb in H; apply Z.leb_gt in H
  | H : (_ <=? _) = true |- _ => apply Z.leb_le in H
  | H : (_ <=? _) = false |- _ => apply Z.leb_gt in H
  | H : (_ <? _) = true |- _ => apply Z.ltb_lt in H
  | H : (_ <? _) = false |- _ => apply Z.ltb_ge in H
  | H : (_ =? _) = true |- _ => apply Z.eqb_eq in H
  | H : (_ =? _) = false |- _ => apply Z.eqb_neq in H
  end.

(** Closed equations are settled by evaluation; the proof term keeps the
    statement as it is written. *)
Ltac by_vm :=
  match goal with
  | |- _ = ?y => vm_cast_no_check (@eq_refl _ y)
  end.

(** ** Strings and lists *)

Lemma len_nonneg {A : Type} (l : list A) : 0 <= len l.
Proof. unfold len. lia. Qed.

Lemma len_app {A : Type} (l1 l2 : list A) : len (l1 ++ l2) = len l1 + len l2.
Proof. unfold len. rewrite length_app. lia. Qed.

Lemma len_nil_iff {A : Type} (l : list A) : len l = 0 <-> l = [].
Proof.
  unfold len. destruct l as [|x l]; simpl; split; intro H;
    try reflexivity; try discriminate; lia.
Qed.

Lemma truthy_false {A : Type} (l : list A) : truthy l = false -> l = [].
Proof. destruct l; simpl; congruence. Qed.

Lemma truthy_true {A : Type} (l : list A) : truthy l = true -> l <> [].
Proof. destruct l; simpl; congruence. Qed.

Lemma str_eqb_eq (a b : str) : str_eqb a b = true <-> a = b.
Proof.
  revert b. induction a as [|x a IH]; intros [|y b]; simpl;
    try (split; congruence).
  rewrite andb_true_iff, N.eqb_eq, IH. split.
  - intros [-> ->]. reflexivity.
  - intros E. injection E as -> ->. split; reflexivity.
Qed.

Lemma str_eqb_refl (a : str) : str_eqb a a = true.
Proof. apply str_eqb_eq. reflexivity. Qed.

Lemma splitlines_cons (keepends : bool) (c : char) (rest : str) :
  splitlines keepends (c :: rest) =
  if is_linebreak c then
    match rest with
    | c' :: rest' =>
        if ((c =? 13) && (c' =? 10))%N
        then (if keepends then [c; c'] else []) :: splitlines keepends rest'
        else (if keepends then [c] else []) :: splitlines keepends rest
    | [] => [if keepends then [c] else []]
    end
  else
    match splitlines keepends rest with
    | [] => [[c]]
    | l :: ls => (c :: l) :: ls
    end.
Proof. reflexivity. Qed.

(** Splitting with the line ends kept loses nothing. *)
Lemma splitlines_keepends_concat_bounded (n : nat) :
  forall s : str, (List.length s <= n)%nat -> concat (splitlines true s) = s.
Proof.
  induction n as [|n IH]; intros [|c rest] Hn; try reflexivity;
    try (simpl in Hn; lia).
  rewrite splitlines_cons. simpl in Hn.
  destruct (is_linebreak c).
  - destruct rest as [|c' rest']; [reflexivity|].
    simpl in Hn.
    destruct ((c =? 13) && (c' =? 10))%N; cbn [concat app].
    + rewrite IH by lia. reflexivity.
    + rewrite IH by (simpl; lia). reflexivity.
  - assert (E : concat (splitlines true rest) = rest) by (apply IH; lia).
    destruct (splitlines true rest) as [|l ls]; simpl in E |- *;
      rewrite <- E; reflexivity.
Qed.

Lemma splitlines_keepends_concat (s : str) : concat (splitlines true s) = s.
Proof. apply (splitlines_keepends_concat_bounded (List.length s)). lia. Qed.

(** A line with its end kept is never empty. *)
Lemma splitlines_keepends_nonempty_bounded (n : nat) :
  forall s : str, (List.length s <= n)%nat ->
    Forall (fun l => l <> []) (splitlines true s).
Proof.
  induction n as [|n IH]; intros [|c rest] Hn; try constructor;
    try (simpl in Hn; lia).
  rewrite splitlines_cons. simpl in Hn.
  destruct (is_linebreak c).
  - destruct rest as [|c' rest']; [repeat constructor; discriminate|].
    simpl in Hn.
    destruct ((c =? 13) && (c' =? 10))%N; constructor;
      try discriminate; apply IH; simpl; lia.
  - assert (F : Forall (fun l => l <> []) (splitlines true rest))
      by (apply IH; lia).
    destruct (splitlines true rest) as [|l ls].
    + repeat constructor. discriminate.
    + inversion F; subst. constructor; [discriminate|assumption].
Qed.

Lemma splitlines_keepends_nonempty (s : str) :
  Forall (fun l => l <> []) (splitlines true s).
Proof. apply (splitlines_keepends_nonempty_bounded (List.length s)). lia. Qed.

Lemma concat_nonempty (ls : list str) :
  ls <> [] -> Forall (fun l => l <> []) ls -> concat ls <> [].
Proof.
  intros Hne F. destruct ls as [|l ls]; [congruence|].
  inversion F; subst. simpl. destruct l; [congruence|discriminate].
Qed.

(** ** Chunker *)

Section ChunkerInvariant.

Variable rel : str.
(** The lines of the file being split. *)
Variable L : list str.

Definition labelled (c : chunk) : Prop :=
  label c = rel \/ exists start, label c = ranged_label rel start.

Definition within_budget (c : chunk) : Prop :=
  len (content c) <= MAX_CHARS
  \/ (In (content c) L /\ MAX_CHARS < len (content c)).

Definition made_of_lines (c : chunk) : Prop :=
  exists ls, ls <> [] /\ Forall (fun l => In l L) ls /\ content c = concat ls.

Definition chunk_ok (c : chunk) : Prop :=
  labelled c /\ within_budget c /\ made_of_lines c.

Definition chunker_inv (st : chunker_state) : Prop :=
  let '(chunks, cur, cur_len, start) := st in
  cur_len = len (concat cur)
  /\ (cur_len <= MAX_CHARS \/ exists l, cur = [l])
  /\ Forall (fun l => In l L) cur
  /\ Forall chunk_ok chunks.

Lemma closed_chunk_ok (lbl : str) (cur : list str) (start : Z) :
  (lbl = rel \/ exists s, lbl = ranged_label rel s) ->
  cur <> [] ->
  (len (concat cur) <= MAX_CHARS \/ exists l, cur = [l]) ->
  Forall (fun l => In l L) cur ->
  chunk_ok (mkChunk lbl (concat cur) start).
Proof.
  intros Hl Hne Hfit Hin. repeat split; simpl.
  - exact Hl.
  - destruct Hfit as [Hfit|[l ->]]; [left; exact Hfit|].
    simpl. rewrite app_nil_r.
    destruct (Z_le_gt_dec (len l) MAX_CHARS) as [Hle|Hgt]; [left; exact Hle|].
    right. simpl. split; [|lia]. inversion Hin; subst. assumption.
  - exists cur. auto.
Qed.

Lemma chunk_step_inv (st : chunker_state) (i : Z) (line : str) :
  In line L -> chunker_inv st -> chunker_inv (chunk_step rel st (i, line)).
Proof.
  destruct st as [[[chunks cur] cur_len] start].
  intros HL (Hlen & Hfit & Hcur & Hchunks). unfold chunk_step.
  destruct ((cur_len + len line >? MAX_CHARS) && truthy cur) eqn:E.
  - apply andb_true_iff in E as [_ Ht]. apply truthy_true in Ht.
    simpl. repeat split.
    + rewrite app_nil_r. reflexivity.
    + right. eexists. reflexivity.
    + constructor; [exact HL|constructor].
    + apply Forall_app. split; [exact Hchunks|]. constructor; [|constructor].
      apply closed_chunk_ok; auto.
      * right. eexists. reflexivity.
      * rewrite <- Hlen. exact Hfit.
  - simpl. repeat split.
    + rewrite concat_app, len_app. simpl. rewrite app_nil_r. lia.
    + apply andb_false_iff in E as [E|E].
      * left. zbool. lia.
      * right. apply truthy_false in E. subst cur. eexists. reflexivity.
    + apply Forall_app. split; [exact Hcur|]. constructor; [exact HL|constructor].
    + exact Hchunks.
Qed.

Lemma chunk_fold_inv (lines : list str) :
  forall (i : Z) (st : chunker_state),
    Forall (fun l => In l L) lines -> chunker_inv st ->
    chunker_inv (fold_left (chunk_step rel) (enumerate_from i lines) st).
Proof.
  induction lines as [|line lines IH]; intros i st HL Hst; simpl.
  - exact Hst.
  - inversion HL; subst. apply IH; [assumption|].
    apply chunk_step_inv; assumption.
Qed.

Lemma chunk_finish_ok (st : chunker_state) :
  chunker_inv st -> Forall chunk_ok (chunk_finish rel st).
Proof.
  destruct st as [[[chunks cur] cur_len] start].
  intros (Hlen & Hfit & Hcur & Hchunks). unfold chunk_finish.
  destruct (truthy cur) eqn:Ht; [|exact Hchunks].
  apply Forall_app. split; [exact Hchunks|]. constructor; [|constructor].
  apply closed_chunk_ok; auto.
  - destruct (start >? 0); [right; eexists; reflexivity|left; reflexivity].
  - apply truthy_true. exact Ht.
  - rewrite <- Hlen. exact Hfit.
Qed.

End ChunkerInvariant.

(** The text held by a state of the Chunker: closed chunks, then the open
    one. *)
Definition held (st : chunker_state) : str :=
  let '(chunks, cur, cur_len, start) := st in
  concat (map content chunks) ++ concat cur.

Lemma chunk_step_held (rel : str) (st : chunker_state) (i : Z) (line : str) :
  held (chunk_step rel st (i, line)) = held st ++ line.
Proof.
  destruct st as [[[chunks cur] cur_len] start]. unfold chunk_step.
  destruct ((cur_len + len line >? MAX_CHARS) && truthy cur); simpl.
  - rewrite map_app, concat_app. simpl. rewrite !app_nil_r. reflexivity.
  - rewrite concat_app. simpl. rewrite app_nil_r, app_assoc. reflexivity.
Qed.

Lemma chunk_fold_held (rel : str) (lines : list str) :
  forall (i : Z) (st : chunker_state),
    held (fold_left (chunk_step rel) (enumerate_from i lines) st)
    = held st ++ concat lines.
Proof.
  induction lines as [|line lines IH]; intros i st; simpl.
  - rewrite app_nil_r. reflexivity.
  - rewrite IH, chunk_step_held, app_assoc. reflexivity.
Qed.

Lemma chunk_finish_held (rel : str) (st : chunker_state) :
  concat (map content (chunk_finish rel st)) = held st.
Proof.
  destruct st as [[[chunks cur] cur_len] start]. unfold chunk_finish.
  destruct (truthy cur) eqn:Ht; simpl.
  - rewrite map_app, concat_app. simpl. rewrite app_nil_r. reflexivity.
  - apply truthy_false in Ht. subst cur. simpl. rewrite app_nil_r.
    reflexivity.
Qed.

Lemma chunk_file_small (rel text : str) :
  len text <= MAX_CHARS -> chunk_file rel text = [mkChunk rel text 0].
Proof.
  intros H. unfold chunk_file. apply Z.leb_le in H. rewrite H. reflexivity.
Qed.

Lemma chunk_file_large (rel text : str) :
  MAX_CHARS < len text ->
  chunk_file rel text
  = chunk_finish rel
      (fold_left (chunk_step rel) (enumerate (splitlines true text))
         ([], [], 0, 0)).
Proof.
  intros H. unfold chunk_file. apply Z.leb_gt in H. rewrite H. reflexivity.
Qed.

Lemma chunk_file_large_ok (rel text : str) :
  MAX_CHARS < len text ->
  Forall (chunk_ok rel (splitlines true text)) (chunk_file rel text).
Proof.
  intros H. rewrite chunk_file_large by exact H.
  apply chunk_finish_ok. apply chunk_fold_inv.
  - apply Forall_forall. auto.
  - simpl. split; [reflexivity|].
    split; [left; unfold MAX_CHARS; lia|]. split; constructor.
Qed.

(** C3. Chunk coverage: the texts of the chunks of a file, concatenated in
    order, are the file's text; and a chunk is longer than [MAX_CHARS] only
    when it is one single line of the file, itself longer than
    [MAX_CHARS] (a line as the Chunker counts it, with its line end). *)
Theorem chunk_coverage (rel text : str) :
  concat (map content (chunk_file rel text)) = text
  /\ Forall (fun c => len (content c) <= MAX_CHARS
                      \/ (In (content c) (splitlines true text)
                          /\ MAX_CHARS < len (content c)))
       (chunk_file rel text).
Proof.
  destruct (Z_le_gt_dec (len text) MAX_CHARS) as [Hs|Hl].
  - rewrite chunk_file_small by exact Hs. split.
    + simpl. apply app_nil_r.
    + constructor; [left; exact Hs|constructor].
  - assert (Hl' : MAX_CHARS < len text) by lia. split.
    + rewrite chunk_file_large by exact Hl'.
      rewrite chunk_finish_held. unfold enumerate.
      rewrite chunk_fold_held. simpl. apply splitlines_keepends_concat.
    + eapply Forall_impl; [|apply chunk_file_large_ok; exact Hl'].
      intros c (_ & Hb & _). exact Hb.
Qed.

(** C8, as the code has it. No chunk of a non-empty text is empty, and a
    text of at most [MAX_CHARS] characters, the empty one included, is one
    chunk with offset 0, the path as its label and the text as its
    content. *)
Theorem chunk_nonempty (rel text : str) :
  (text <> [] -> Forall (fun c => content c <> []) (chunk_file rel text))
  /\ (len text <= MAX_CHARS -> chunk_file rel text = [mkChunk rel text 0]).
Proof.
  split; [|apply chunk_file_small].
  intros Hne. destruct (Z_le_gt_dec (len text) MAX_CHARS) as [Hs|Hl].
  - rewrite chunk_file_small by exact Hs. constructor; [exact Hne|constructor].
  - eapply Forall_impl; [|apply chunk_file_large_ok; lia].
    intros c (_ & _ & ls & Hls & Hin & ->). apply concat_nonempty; [exact Hls|].
    pose proof (splitlines_keepends_nonempty text) as F.
    rewrite Forall_forall in F, Hin |- *. auto.
Qed.

(** C8 at a one-line file. *)
Lemma chunk_nonempty_witness :
  Forall (fun c => content c <> []) (chunk_file (of_string "a.py") (of_string "x = 1"))
  /\ chunk_file (of_string "a.py") (of_string "x = 1")
     = [mkChunk (of_string "a.py") (of_string "x = 1") 0].
Proof.
  split.
  - apply (proj1 (chunk_nonempty (of_string "a.py") (of_string "x = 1"))).
    discriminate.
  - apply (proj2 (chunk_nonempty (of_string "a.py") (of_string "x = 1"))).
    vm_compute. discriminate.
Defined.

(** C8 as stated fails on the empty file: its one chunk is empty. *)
Lemma empty_file_gives_empty_chunk :
  ~ (forall rel text : str,
        Forall (fun c => content c <> []) (chunk_file rel text)).
Proof.
  intros H. specialize (H (of_string "empty.txt") []).
  inversion H as [|c l Hc Hl]; subst. apply Hc. reflexivity.
Qed.

(** ** Labels *)

Lemma rel_from_label_app (rel tail : str) :
  ~ In 91%N rel -> rel_from_label (rel ++ 91%N :: tail) = rel.
Proof.
  induction rel as [|c rel IH]; intros H; simpl.
  - reflexivity.
  - destruct (N.eqb_spec c 91) as [->|_].
    + exfalso. apply H. left. reflexivity.
    + rewrite IH; [reflexivity|]. intros Hin. apply H. right. exact Hin.
Qed.

Lemma rel_from_label_id (rel : str) :
  ~ In 91%N rel -> rel_from_label rel = rel.
Proof.
  induction rel as [|c rel IH]; intros H; simpl.
  - reflexivity.
  - destruct (N.eqb_spec c 91) as [->|_].
    + exfalso. apply H. left. reflexivity.
    + rewrite IH; [reflexivity|]. intros Hin. apply H. right. exact Hin.
Qed.

Lemma chunk_file_labelled (rel text : str) :
  Forall (labelled rel) (chunk_file rel text).
Proof.
  destruct (Z_le_gt_dec (len text) MAX_CHARS) as [Hs|Hl].
  - rewrite chunk_file_small by exact Hs.
    constructor; [left; reflexivity|constructor].
  - eapply Forall_impl; [|apply chunk_file_large_ok; lia].
    intros c (Hc & _). exact Hc.
Qed.

(** C9. Label round trip: for a path without '[' (code point 91),
    [rel_from_label] gives the path back from the label of every chunk of
    the file; and the condition is needed: the file "a[b].py" is one chunk
    whose label comes back as "a", the path its match is filed under. *)
Theorem label_roundtrip :
  (forall rel text : str,
      ~ In 91%N rel ->
      Forall (fun c => rel_from_label (label c) = rel) (chunk_file rel text))
  /\ (let rel := of_string "a[b].py" in
      let text := of_string "x = 1" in
      In 91%N rel
      /\ Forall (fun c => rel_from_label (label c) = of_string "a"
                          /\ rel_from_label (label c) <> rel)
           (chunk_file rel text)
      /\ match_results (Some (of_string "x = 1")) (chunk_file rel text)
         = [(of_string "a", [(1, of_string "x = 1")])]).
Proof.
  split.
  - intros rel text H. eapply Forall_impl; [|apply chunk_file_labelled].
    intros c [E|[start E]]; rewrite E.
    + apply rel_from_label_id. exact H.
    + unfold ranged_label. apply rel_from_label_app. exact H.
  - cbv zeta. split; [|split].
    + vm_compute. tauto.
    + vm_compute. constructor; [|constructor]. split; [reflexivity|discriminate].
    + vm_compute. reflexivity.
Qed.

(** C9 at the path "src/a.py". *)
Lemma label_roundtrip_witness :
  Forall (fun c => rel_from_label (label c) = of_string "src/a.py")
    (chunk_file (of_string "src/a.py") (of_string "x = 1")).
Proof.
  apply (proj1 label_roundtrip).
  vm_compute. intuition discriminate.
Defined.

(** ** Batcher *)

(** [sum(len(c) for _,c,_ in b)] *)
Definition batch_size (b : batch) : Z :=
  fold_right (fun c acc => len (content c) + acc) 0 b.

(** A batch within the budget, or one oversized chunk alone. *)
Definition batch_ok (b : batch) : Prop :=
  batch_size b <= MAX_CHARS
  \/ exists c, b = [c] /\ MAX_CHARS < len (content c).

Definition packer_inv (st : packer_state) : Prop :=
  let '(batches, cur, cur_len) := st in
  cur_len = batch_size cur /\ cur_len <= MAX_CHARS /\ Forall batch_ok batches.

(** The chunks held by a state of the Batcher: closed batches, then the
    open one. *)
Definition packed (st : packer_state) : list chunk :=
  let '(batches, cur, cur_len) := st in concat batches ++ cur.

Lemma batch_size_app (b1 b2 : batch) :
  batch_size (b1 ++ b2) = batch_size b1 + batch_size b2.
Proof.
  induction b1 as [|c b1 IH]; simpl; [reflexivity|]. rewrite IH. lia.
Qed.

Lemma pack_step_oversized (batches : list batch) (cur : batch) (cur_len : Z)
  (c : chunk) :
  MAX_CHARS < len (content c) ->
  pack_step (batches, cur, cur_len) c = (batches ++ [[c]], cur, cur_len).
Proof.
  intros H. unfold pack_step.
  destruct (len (content c) >? MAX_CHARS) eqn:E; [reflexivity|]. zbool. lia.
Qed.

Lemma pack_step_inv (st : packer_state) (c : chunk) :
  packer_inv st -> packer_inv (pack_step st c).
Proof.
  destruct st as [[batches cur] cur_len]. intros (Hlen & Hfit & Hb).
  unfold pack_step.
  destruct (len (content c) >? MAX_CHARS) eqn:E1; zbool.
  - repeat split; try assumption.
    apply Forall_app. split; [exact Hb|]. constructor; [|constructor].
    right. exists c. split; [reflexivity|exact E1].
  - destruct (cur_len + len (content c) >? MAX_CHARS) eqn:E2; zbool.
    + repeat split.
      * simpl. lia.
      * exact E1.
      * destruct (truthy cur); [|exact Hb].
        apply Forall_app. split; [exact Hb|]. constructor; [|constructor].
        left. lia.
    + repeat split.
      * rewrite batch_size_app. simpl. lia.
      * exact E2.
      * exact Hb.
Qed.

Lemma pack_fold_inv (chunks : list chunk) :
  forall st, packer_inv st -> packer_inv (fold_left pack_step chunks st).
Proof.
  induction chunks as [|c chunks IH]; intros st H; simpl; [exact H|].
  apply IH, pack_step_inv, H.
Qed.

Lemma pack_finish_ok (st : packer_state) :
  packer_inv st -> Forall batch_ok (pack_finish st).
Proof.
  destruct st as [[batches cur] cur_len]. intros (Hlen & Hfit & Hb).
  unfold pack_finish. destruct (truthy cur); [|exact Hb].
  apply Forall_app. split; [exact Hb|]. constructor; [|constructor].
  left. lia.
Qed.

Lemma pack_step_packed (st : packer_state) (c : chunk) :
  Permutation (packed (pack_step st c)) (packed st ++ [c]).
Proof.
  destruct st as [[batches cur] cur_len]. unfold pack_step.
  destruct (len (content c) >? MAX_CHARS).
  - simpl. rewrite concat_app. simpl. rewrite <- !app_assoc.
    apply Permutation_app_head. apply Permutation_app_comm.
  - destruct (cur_len + len (content c) >? MAX_CHARS).
    + destruct (truthy cur) eqn:Ht; simpl.
      * rewrite concat_app. simpl. rewrite app_nil_r, <- app_assoc.
        reflexivity.
      * apply truthy_false in Ht. subst cur. rewrite app_nil_r. reflexivity.
    + simpl. rewrite app_assoc. reflexivity.
Qed.

Lemma pack_fold_packed (chunks : list chunk) :
  forall st,
    Permutation (packed (fold_left pack_step chunks st)) (packed st ++ chunks).
Proof.
  induction chunks as [|c chunks IH]; intros st; simpl.
  - rewrite app_nil_r. reflexivity.
  - rewrite IH, pack_step_packed, <- app_assoc. reflexivity.
Qed.

Lemma pack_finish_packed (st : packer_state) :
  concat (pack_finish st) = packed st.
Proof.
  destruct st as [[batches cur] cur_len]. unfold pack_finish.
  destruct (truthy cur) eqn:Ht; simpl.
  - rewrite concat_app. simpl. rewrite app_nil_r. reflexivity.
  - apply truthy_false in Ht. subst cur. rewrite app_nil_r. reflexivity.
Qed.

(** [pack_batches] is the Batcher run on the chunks of the readable files,
    in file-then-chunk order. *)
Lemma pack_files_chunks (files : list file) :
  forall st,
    fold_left pack_file files st = fold_left pack_step (all_chunks files) st.
Proof.
  induction files as [|[rel [text|]] files IH]; intros st; simpl.
  - reflexivity.
  - rewrite fold_left_app. apply IH.
  - apply IH.
Qed.

Lemma pack_batches_chunks (files : list file) :
  pack_batches files = pack_chunks (all_chunks files).
Proof. unfold pack_batches, pack_chunks. rewrite pack_files_chunks. reflexivity. Qed.

(** C4. Batch budget: every batch the Batcher makes has a total text length
    of at most [MAX_CHARS] or is one chunk alone that is itself longer, and
    the batches together hold every input chunk exactly once. *)
Theorem batch_budget (chunks : list chunk) :
  Forall (fun b => batch_size b <= MAX_CHARS
                   \/ exists c, b = [c] /\ MAX_CHARS < len (content c))
    (pack_chunks chunks)
  /\ Permutation (concat (pack_chunks chunks)) chunks.
Proof.
  unfold pack_chunks. split.
  - apply pack_finish_ok, pack_fold_inv. simpl.
    repeat split; [unfold MAX_CHARS; lia|constructor].
  - rewrite pack_finish_packed, pack_fold_packed. reflexivity.
Qed.

(** C10. An oversized chunk is emitted at once as a batch of its own and
    the open batch stays as it was; so a chunk before it and a chunk after
    it that fit together share one batch, which comes after the oversized
    one in the output. *)
Theorem oversized_chunk_leaves_batch_open :
  (forall (batches : list batch) (cur : batch) (cur_len : Z) (c : chunk),
      MAX_CHARS < len (content c) ->
      pack_step (batches, cur, cur_len) c = (batches ++ [[c]], cur, cur_len))
  /\ (forall a big b : chunk,
         MAX_CHARS < len (content big) ->
         len (content a) + len (content b) <= MAX_CHARS ->
         pack_chunks [a; big; b] = [[big]; [a; b]]).
Proof.
  split; [apply pack_step_oversized|].
  intros a big b Hbig Hab.
  pose proof (len_nonneg (content a)) as Ha.
  pose proof (len_nonneg (content b)) as Hb.
  unfold pack_chunks. cbn [fold_left].
  assert (E1 : pack_step ([], [], 0) a = ([], [a], len (content a))).
  { unfold pack_step.
    destruct (len (content a) >? MAX_CHARS) eqn:E; zbool; [lia|].
    destruct (0 + len (content a) >? MAX_CHARS) eqn:E'; zbool; [lia|].
    reflexivity. }
  rewrite E1, pack_step_oversized by exact Hbig.
  unfold pack_step.
  destruct (len (content b) >? MAX_CHARS) eqn:E; zbool; [lia|].
  destruct (len (content a) + len (content b) >? MAX_CHARS) eqn:E'; zbool;
    [lia|].
  reflexivity.
Qed.

(** Three files: a single line of 20001 characters between two short
    files. *)
Definition long_line : str := repeat 120%N (Z.to_nat 20001).

Definition three_files : list file :=
  [(of_string "a.txt", Some (of_string "x"));
   (of_string "big.txt", Some long_line);
   (of_string "b.txt", Some (of_string "y"))].

Definition chunk_a : chunk := mkChunk (of_string "a.txt") (of_string "x") 0.
Definition chunk_big : chunk := mkChunk (of_string "big.txt") long_line 0.
Definition chunk_b : chunk := mkChunk (of_string "b.txt") (of_string "y") 0.

(** C10 on the three files: the chunks of the short files share the batch
    that follows the one of the long line. *)
Lemma oversized_chunk_leaves_batch_open_witness :
  pack_batches three_files = [[chunk_big]; [chunk_a; chunk_b]]
  /\ pack_chunks [chunk_a; chunk_big; chunk_b]
     = [[chunk_big]; [chunk_a; chunk_b]].
Proof.
  split.
  - by_vm.
  - apply (proj2 oversized_chunk_leaves_batch_open).
    + unfold Z.lt. by_vm.
    + apply Z.leb_le. by_vm.
Defined.

(** ** Reconciler *)

Section Reconciler.

Variable src : list str.
Variable offset : Z.

(** Line [i] can be recorded for the trimmed response line [s]: it is a
    line of the chunk, trimmed-equal to [s], whose global line number is
    not recorded yet. *)
Definition eligible (seen : list Z) (s : str) (i : nat) : Prop :=
  (i < List.length src)%nat
  /\ strip (nth i src []) = s
  /\ ~ In (offset + Z.of_nat i + 1) seen.

(** [i] is the first index from [lo] on with property [P]. *)
Definition first_from (P : nat -> Prop) (lo i : nat) : Prop :=
  (lo <= i)%nat /\ P i /\ forall j, (lo <= j < i)%nat -> ~ P j.

Lemma mem_In (n : Z) (seen : list Z) : mem n seen = true <-> In n seen.
Proof.
  unfold mem. rewrite existsb_exists. split.
  - intros (x & Hx & E). apply Z.eqb_eq in E. subst. exact Hx.
  - intros H. exists n. split; [exact H|apply Z.eqb_refl].
Qed.

Lemma test_eligible (seen : list Z) (s : str) (i : nat) :
  (i < List.length src)%nat ->
  str_eqb (strip (nth i src [])) s
  && negb (mem (offset + Z.of_nat i + 1) seen) = true
  <-> eligible seen s i.
Proof.
  intros Hi. unfold eligible.
  rewrite andb_true_iff, str_eqb_eq, negb_true_iff.
  rewrite <- not_true_iff_false, mem_In. tauto.
Qed.

(** The inner loop over [range(lo, lo + n)] finds the first eligible index
    of the range, or none when the range has none. *)
Lemma scan_seq (seen : list Z) (s : str) (n : nat) :
  forall lo, (lo + n <= List.length src)%nat ->
    match scan src offset seen s (seq lo n) with
    | Some i => (i < lo + n)%nat /\ first_from (eligible seen s) lo i
    | None => forall j, (lo <= j < lo + n)%nat -> ~ eligible seen s j
    end.
Proof.
  induction n as [|n IH]; intros lo Hn; simpl.
  - intros j Hj. lia.
  - destruct (str_eqb (strip (nth lo src [])) s
              && negb (mem (offset + Z.of_nat lo + 1) seen)) eqn:E.
    + apply test_eligible in E; [|lia].
      split; [lia|]. split; [lia|]. split; [exact E|]. intros j Hj. lia.
    + assert (Hlo : ~ eligible seen s lo).
      { intros H. apply test_eligible in H; [|lia]. congruence. }
      specialize (IH (S lo)). destruct (scan src offset seen s (seq (S lo) n)).
      * destruct IH as (Hi & Hle & He & Hmin); [lia|].
        split; [lia|]. split; [lia|]. split; [exact He|].
        intros j Hj. destruct (Nat.eq_dec j lo) as [->|Hne]; [exact Hlo|].
        apply Hmin. lia.
      * intros j Hj. destruct (Nat.eq_dec j lo) as [->|Hne]; [exact Hlo|].
        apply IH; lia.
Qed.

Lemma scan_range (seen : list Z) (s : str) (lo : nat) :
  match scan src offset seen s (range lo (List.length src)) with
  | Some i => first_from (eligible seen s) lo i
  | None => forall j, (lo <= j)%nat -> ~ eligible seen s j
  end.
Proof.
  unfold range. destruct (le_lt_dec lo (List.length src)) as [Hle|Hgt].
  - pose proof (scan_seq seen s (List.length src - lo) lo) as H.
    destruct (scan src offset seen s (seq lo (List.length src - lo))).
    + apply H. lia.
    + intros j Hj He. destruct He as [Hj' He].
      apply (H ltac:(lia) j); [lia|]. split; assumption.
  - replace (List.length src - lo)%nat with 0%nat by lia. simpl.
    intros j Hj (Hj' & _). lia.
Qed.

(** What one response line does to the state of [find_lines]. *)
Lemma find_step_cases (results : list record) (seen : list Z) (idx : nat)
  (ml : str) :
  let s := strip ml in
  let st' := find_step src offset (results, seen, idx) ml in
  let recorded i :=
    (results ++ [(offset + Z.of_nat i + 1, nth i src [])],
     (offset + Z.of_nat i + 1) :: seen, S i) in
  (s = [] /\ st' = (results, seen, idx))
  \/ (s <> [] /\ exists i,
         first_from (eligible seen s) idx i /\ st' = recorded i)
  \/ (s <> [] /\ (forall j, (idx <= j)%nat -> ~ eligible seen s j)
      /\ exists i, first_from (eligible seen s) 0 i /\ st' = recorded i)
  \/ (s <> [] /\ (forall j, ~ eligible seen s j)
      /\ st' = (results, seen, idx)).
Proof.
  cbv zeta. unfold find_step.
  destruct (truthy (strip ml)) eqn:Ht; simpl negb; cbv iota.
  2:{ left. split; [apply truthy_false; exact Ht|reflexivity]. }
  apply truthy_true in Ht. right.
  pose proof (scan_range seen (strip ml) idx) as Hfwd.
  destruct (scan src offset seen (strip ml) (range idx (List.length src)))
    as [i|].
  - left. split; [exact Ht|]. exists i. split; [exact Hfwd|reflexivity].
  - right. pose proof (scan_range seen (strip ml) 0) as Hall.
    destruct (scan src offset seen (strip ml) (range 0 (List.length src)))
      as [i|].
    + left. split; [exact Ht|]. split; [exact Hfwd|].
      exists i. split; [exact Hall|reflexivity].
    + right. split; [exact Ht|]. split; [|reflexivity].
      intros j. apply Hall. lia.
Qed.

(** A record names a line of the chunk: its number is the line's global
    number and its text is the line as it stands. *)
Definition from_source (r : record) : Prop :=
  exists i, nth_error src i = Some (snd r) /\ fst r = offset + Z.of_nat i + 1.

Lemma find_step_from_source (st : finder_state) (ml : str) :
  Forall from_source (fst (fst st)) ->
  Forall from_source (fst (fst (find_step src offset st ml))).
Proof.
  destruct st as [[results seen] idx]. intros H.
  destruct (find_step_cases results seen idx ml)
    as [[_ ->]|[(_ & i & Hi & ->)|[(_ & _ & i & Hi & ->)|(_ & _ & ->)]]];
    simpl; try exact H;
    (apply Forall_app; split; [exact H|]; constructor; [|constructor];
     exists i; simpl; split; [|reflexivity];
     destruct Hi as (_ & (Hlt & _) & _); apply nth_error_nth'; exact Hlt).
Qed.

Lemma find_fold_from_source (matched : list str) :
  forall st, Forall from_source (fst (fst st)) ->
    Forall from_source
      (fst (fst (fold_left (find_step src offset) matched st))).
Proof.
  induction matched as [|ml matched IH]; intros st H; simpl; [exact H|].
  apply IH, find_step_from_source, H.
Qed.

End Reconciler.

(** C7. No invention: every record [find_lines] returns carries the text of
    a line of the chunk exactly as it stands there, untrimmed, together
    with that line's global number. *)
Theorem find_lines_no_invention (content : str) (offset : Z)
  (matched : list str) :
  Forall (fun r =>
            In (snd r) (splitlines false content)
            /\ exists i,
                nth_error (splitlines false content) i = Some (snd r)
                /\ fst r = offset + Z.of_nat i + 1)
    (find_lines content offset matched).
Proof.
  unfold find_lines.
  eapply Forall_impl;
    [|apply find_fold_from_source with (st := ([], [], 0%nat)); constructor].
  intros r (i & Hi & Hn). split.
  - eapply nth_error_In. exact Hi.
  - exists i. split; assumption.
Qed.

(** C2, as the code has it. [find_lines] starts with nothing recorded and
    the cursor at 0 and takes the response lines in order. A line that is
    blank after trimming changes nothing. Otherwise the search is for the
    first chunk line that is trimmed-equal to the response line and whose
    global line number [offset + i + 1] is not recorded yet: forward from
    the cursor, and in the whole chunk when the forward scan has none. The
    line found is recorded with its number and untrimmed text and the
    cursor moves to [i + 1]; when no line qualifies, nothing changes. *)
Theorem find_lines_policy (content : str) (offset : Z) :
  let src := splitlines false content in
  (forall matched,
      find_lines content offset matched
      = fst (fst (fold_left (find_step src offset) matched ([], [], 0%nat))))
  /\ forall (results : list record) (seen : list Z) (idx : nat) (ml : str),
      let s := strip ml in
      let st' := find_step src offset (results, seen, idx) ml in
      let recorded i :=
        (results ++ [(offset + Z.of_nat i + 1, nth i src [])],
         (offset + Z.of_nat i + 1) :: seen, S i) in
      (s = [] /\ st' = (results, seen, idx))
      \/ (s <> [] /\ exists i,
             first_from (eligible src offset seen s) idx i
             /\ st' = recorded i)
      \/ (s <> []
          /\ (forall j, (idx <= j)%nat -> ~ eligible src offset seen s j)
          /\ exists i, first_from (eligible src offset seen s) 0 i
                       /\ st' = recorded i)
      \/ (s <> [] /\ (forall j, ~ eligible src offset seen s j)
          /\ st' = (results, seen, idx)).
Proof.
  cbv zeta. split; [reflexivity|]. intros. apply find_step_cases.
Qed.

(** Two chunks on which the search passes over a recorded line. *)
Definition chunk_axx : str :=
  join [10%N] [of_string "a"; of_string "x"; of_string "x"].

Definition chunk_xabx : str :=
  join [10%N] [of_string "x"; of_string "a"; of_string "b"; of_string "x"].

(** On "a, x, x" the response "x, a, x" gets three records: the third
    response line passes over line 2, recorded already, and takes line 3. *)
Example find_lines_axx :
  find_lines chunk_axx 0 [of_string "x"; of_string "a"; of_string "x"]
  = [(2, of_string "x"); (1, of_string "a"); (3, of_string "x")]
  /\ find_lines_by_words chunk_axx 0
       [of_string "x"; of_string "a"; of_string "x"]
     = [(2, of_string "x"); (1, of_string "a")].
Proof. split; reflexivity. Qed.

(** On "x, a, b, x" the response "b, x, a, x" gets four records: for its
    last line the forward scan meets only the recorded line 4, and the scan
    of the whole chunk takes line 1. *)
Example find_lines_xabx :
  find_lines chunk_xabx 0
    [of_string "b"; of_string "x"; of_string "a"; of_string "x"]
  = [(3, of_string "b"); (4, of_string "x"); (2, of_string "a");
     (1, of_string "x")]
  /\ find_lines_by_words chunk_xabx 0
       [of_string "b"; of_string "x"; of_string "a"; of_string "x"]
     = [(3, of_string "b"); (4, of_string "x"); (2, of_string "a")].
Proof. split; reflexivity. Qed.

(** C2 as stated fails: the code does not stop at the first trimmed-equal
    line to look its number up; a recorded line is no match for it. *)
Lemma find_lines_differs_from_words :
  ~ (forall (content : str) (offset : Z) (matched : list str),
        find_lines content offset matched
        = find_lines_by_words content offset matched).
Proof.
  intros H.
  specialize (H chunk_axx 0 [of_string "x"; of_string "a"; of_string "x"]).
  vm_compute in H. discriminate H.
Qed.

(** ** Sorting and deduplication *)

Section SortingFacts.

Context {A : Type} (leb : A -> A -> bool).
Hypothesis leb_total : forall a b, leb a b = false -> leb b a = true.

Let le (a b : A) : Prop := leb a b = true.

Lemma insert_perm (x : A) (l : list A) : Permutation (insert leb x l) (x :: l).
Proof.
  induction l as [|y l IH]; simpl; [reflexivity|].
  destruct (leb x y); [reflexivity|].
  rewrite IH. apply perm_swap.
Qed.

Lemma sorted_perm (l : list A) : Permutation (sorted leb l) l.
Proof.
  induction l as [|x l IH]; simpl; [reflexivity|].
  rewrite insert_perm, IH. reflexivity.
Qed.

Lemma insert_HdRel (a x : A) (l : list A) :
  le a x -> HdRel le a l -> HdRel le a (insert leb x l).
Proof.
  intros Hax H. destruct l as [|y l]; simpl.
  - constructor. exact Hax.
  - destruct (leb x y); constructor; [exact Hax|].
    inversion H; subst. assumption.
Qed.

Lemma insert_Sorted (x : A) (l : list A) :
  Sorted le l -> Sorted le (insert leb x l).
Proof.
  induction l as [|y l IH]; intros H; simpl.
  - repeat constructor.
  - destruct (leb x y) eqn:E.
    + constructor; [exact H|]. constructor. exact E.
    + inversion H; subst. constructor; [apply IH; assumption|].
      apply insert_HdRel; [|assumption]. apply leb_total. exact E.
Qed.

Lemma sorted_Sorted (l : list A) : Sorted le (sorted leb l).
Proof.
  induction l as [|x l IH]; simpl; [constructor|].
  apply insert_Sorted. exact IH.
Qed.

End SortingFacts.

Lemma Sorted_weaken {A : Type} (R R' : A -> A -> Prop) (l : list A) :
  (forall a b, R a b -> R' a b) -> Sorted R l -> Sorted R' l.
Proof.
  intros HR H. induction H as [|a l Hs IH Hh]; constructor; [exact IH|].
  destruct Hh; constructor. apply HR. assumption.
Qed.

Lemma str_compare_antisym (a b : str) :
  str_compare b a = CompOpp (str_compare a b).
Proof.
  revert b. induction a as [|x a IH]; intros [|y b]; simpl; try reflexivity.
  rewrite (N.compare_antisym x y).
  destruct (N.compare x y); simpl; [apply IH|reflexivity|reflexivity].
Qed.

Lemma rec_compare_antisym (a b : record) :
  rec_compare b a = CompOpp (rec_compare a b).
Proof.
  unfold rec_compare. rewrite (Z.compare_antisym (fst a) (fst b)).
  destruct (fst a ?= fst b); simpl;
    [apply str_compare_antisym|reflexivity|reflexivity].
Qed.

Lemma rec_leb_total (a b : record) : rec_leb a b = false -> rec_leb b a = true.
Proof.
  unfold rec_leb. rewrite (rec_compare_antisym a b).
  destruct (rec_compare a b); simpl; congruence.
Qed.

Lemma rec_leb_fst (a b : record) : rec_leb a b = true -> fst a <= fst b.
Proof.
  unfold rec_leb, rec_compare.
  destruct (fst a ?= fst b) eqn:E; intros H.
  - apply Z.compare_eq in E. lia.
  - rewrite Z.compare_lt_iff in E. lia.
  - discriminate H.
Qed.

Lemma rec_eqb_eq (a b : record) : rec_eqb a b = true <-> a = b.
Proof.
  destruct a as [n s], b as [m t]. unfold rec_eqb. simpl.
  rewrite andb_true_iff, Z.eqb_eq, str_eqb_eq. split.
  - intros [-> ->]. reflexivity.
  - intros E. injection E as -> ->. split; reflexivity.
Qed.

Lemma set_of_In (x : record) (l : list record) : In x (set_of l) <-> In x l.
Proof.
  induction l as [|y l IH]; simpl; [tauto|].
  destruct (existsb (rec_eqb y) l) eqn:E.
  - rewrite IH. split; [auto|]. intros [->|H]; [|exact H].
    apply existsb_exists in E as (z & Hz & Ez).
    apply rec_eqb_eq in Ez. subst z. exact Hz.
  - simpl. rewrite IH. tauto.
Qed.

Lemma set_of_NoDup (l : list record) : NoDup (set_of l).
Proof.
  induction l as [|y l IH]; simpl; [constructor|].
  destruct (existsb (rec_eqb y) l) eqn:E; [exact IH|].
  constructor; [|exact IH]. rewrite set_of_In. intros H.
  assert (existsb (rec_eqb y) l = true); [|congruence].
  apply existsb_exists. exists y. split; [exact H|]. apply rec_eqb_eq.
  reflexivity.
Qed.

(** [sorted(set(l))]: no record twice, line numbers ascending, and the
    records of [l]. *)
Lemma sorted_set_spec (l : list record) :
  NoDup (sorted rec_leb (set_of l))
  /\ Sorted (fun a b => fst a <= fst b) (sorted rec_leb (set_of l))
  /\ forall x, In x (sorted rec_leb (set_of l)) <-> In x l.
Proof.
  split; [|split].
  - eapply Permutation_NoDup; [|apply set_of_NoDup].
    symmetry. apply sorted_perm.
  - eapply Sorted_weaken; [|apply sorted_Sorted; exact rec_leb_total].
    intros a b. apply rec_leb_fst.
  - intros x. split; intros H.
    + apply set_of_In. eapply Permutation_in; [apply sorted_perm|exact H].
    + eapply Permutation_in; [symmetry; apply sorted_perm|].
      apply set_of_In. exact H.
Qed.

(** Every file's matches in the result of one batch are without
    repetition and ascending by line number. *)
Lemma match_results_sorted (output : option str) (b : batch) :
  Forall (fun kv => NoDup (snd kv)
                    /\ Sorted (fun x y => fst x <= fst y) (snd kv))
    (match_results output b).
Proof.
  unfold match_results. destruct output as [output|]; [|constructor].
  destruct (negb (truthy output) || negb (truthy (strip output)));
    [constructor|].
  apply Forall_map. apply Forall_forall. intros kv _. simpl.
  pose proof (sorted_set_spec (snd kv)) as (H1 & H2 & _). split; assumption.
Qed.

(** ** The dispatch loop *)

(** What a completed future adds to the output: the result of its batch,
    and nothing when its call failed. *)
Definition result_of (fut : completion) : results_map :=
  match snd fut with
  | Returned output => match_results output (fst fut)
  | Raised _ => []
  end.

(** What a completed future adds to the failures reported. *)
Definition failure_of (fut : completion) : list (list str * error) :=
  match snd fut with
  | Returned _ => []
  | Raised e => [(map label (fst fut), e)]
  end.

Definition succeeded (fut : completion) : bool :=
  match snd fut with Returned _ => true | Raised _ => false end.

(** The lines one result is printed as, in either mode, and [printed]
    after it. *)
Definition block (is_tty printed : bool) (results : results_map) : list str :=
  if is_tty then fst (fmt_tty results printed) else fmt_pipe results.

Definition printed_after (is_tty printed : bool) (results : results_map)
  : bool :=
  if is_tty then snd (fmt_tty results printed) else printed.

(** The lines a sequence of results is printed as, one after the other. *)
Fixpoint present (is_tty printed : bool) (rs : list results_map) : list str :=
  match rs with
  | [] => []
  | r :: rest =>
      block is_tty printed r
      ++ present is_tty (printed_after is_tty printed r) rest
  end.

Lemma main_step_eq (is_tty : bool) (st : run_state) (fut : completion) :
  main_step is_tty st fut
  = mkRun (found st || truthy (result_of fut))
      (printed_after is_tty (printed st) (result_of fut))
      (stdout st ++ block is_tty (printed st) (result_of fut))
      (stderr st ++ failure_of fut).
Proof.
  destruct st as [f p out err], fut as [b [output|e]];
    unfold main_step, result_of, failure_of, block, printed_after; simpl.
  - destruct (match_results output b) as [|kv results] eqn:E; simpl.
    + destruct is_tty; simpl; rewrite orb_false_r, !app_nil_r; reflexivity.
    + rewrite orb_true_r, app_nil_r. destruct is_tty; [|reflexivity].
      destruct (fmt_tty (kv :: results) p). reflexivity.
  - destruct is_tty; simpl; rewrite orb_false_r, !app_nil_r; reflexivity.
Qed.

Lemma main_fold_found (is_tty : bool) (completed : list completion) :
  forall st,
    found (fold_left (main_step is_tty) completed st)
    = found st || existsb (fun fut => truthy (result_of fut)) completed.
Proof.
  induction completed as [|fut completed IH]; intros st; simpl.
  - rewrite orb_false_r. reflexivity.
  - rewrite IH, main_step_eq. simpl. rewrite orb_assoc. reflexivity.
Qed.

Lemma main_fold_stdout (is_tty : bool) (completed : list completion) :
  forall st,
    stdout (fold_left (main_step is_tty) completed st)
    = stdout st ++ present is_tty (printed st) (map result_of completed).
Proof.
  induction completed as [|fut completed IH]; intros st; simpl.
  - rewrite app_nil_r. reflexivity.
  - rewrite IH, main_step_eq. simpl. rewrite app_assoc. reflexivity.
Qed.

Lemma main_fold_stderr (is_tty : bool) (completed : list completion) :
  forall st,
    stderr (fold_left (main_step is_tty) completed st)
    = stderr st ++ flat_map failure_of completed.
Proof.
  induction completed as [|fut completed IH]; intros st; simpl.
  - rewrite app_nil_r. reflexivity.
  - rewrite IH, main_step_eq. simpl. rewrite app_assoc. reflexivity.
Qed.

Lemma block_nil (is_tty printed : bool) : block is_tty printed [] = [].
Proof. destruct is_tty; reflexivity. Qed.

Lemma printed_after_nil (is_tty printed : bool) :
  printed_after is_tty printed [] = printed.
Proof. destruct is_tty; reflexivity. Qed.

Lemma result_of_failed (fut : completion) :
  succeeded fut = false -> result_of fut = [].
Proof.
  destruct fut as [b [output|e]]; unfold succeeded, result_of; simpl;
    [discriminate|reflexivity].
Qed.

(** Failed calls add nothing to what is printed. *)
Lemma present_succeeded (is_tty : bool) (completed : list completion) :
  forall printed,
    present is_tty printed (map result_of completed)
    = present is_tty printed (map result_of (filter succeeded completed)).
Proof.
  induction completed as [|fut completed IH]; intros p; simpl;
    [reflexivity|].
  destruct (succeeded fut) eqn:E; simpl.
  - rewrite IH. reflexivity.
  - rewrite (result_of_failed fut E), block_nil, printed_after_nil. apply IH.
Qed.

Lemma found_succeeded (completed : list completion) :
  existsb (fun fut => truthy (result_of fut)) completed
  = existsb (fun fut => truthy (result_of fut)) (filter succeeded completed).
Proof.
  induction completed as [|fut completed IH]; simpl; [reflexivity|].
  destruct (succeeded fut) eqn:E; simpl.
  - rewrite IH. reflexivity.
  - rewrite (result_of_failed fut E). simpl. exact IH.
Qed.

(** A result among those printed has its block in the output. *)
Lemma present_In (is_tty : bool) (r : results_map) (rs : list results_map) :
  In r rs ->
  forall printed, exists pre p post,
    present is_tty printed rs = pre ++ block is_tty p r ++ post.
Proof.
  induction rs as [|r' rs IH]; intros Hin p0; [contradiction|].
  destruct Hin as [->|Hin]; simpl.
  - exists [], p0, (present is_tty (printed_after is_tty p0 r) rs).
    reflexivity.
  - destruct (IH Hin (printed_after is_tty p0 r')) as (pre & p & post & E).
    exists (block is_tty p0 r' ++ pre), p, post.
    rewrite E, app_assoc. reflexivity.
Qed.

Lemma present_all_nil (is_tty : bool) (rs : list results_map) :
  Forall (fun r => r = []) rs ->
  forall printed, present is_tty printed rs = [].
Proof.
  induction 1 as [|r rs -> _ IH]; intros p; simpl; [reflexivity|].
  rewrite block_nil, printed_after_nil. apply IH.
Qed.

Lemma present_pipe (rs : list results_map) :
  forall printed, present false printed rs = flat_map fmt_pipe rs.
Proof.
  induction rs as [|r rs IH]; intros p; simpl; [reflexivity|].
  rewrite IH. reflexivity.
Qed.

Lemma result_of_sorted (fut : completion) :
  Forall (fun kv => NoDup (snd kv)
                    /\ Sorted (fun x y => fst x <= fst y) (snd kv))
    (result_of fut).
Proof.
  unfold result_of. destruct (snd fut); [|constructor].
  apply match_results_sorted.
Qed.

(** A file of three lines, the second 20000 characters long with its line
    end, so that every line is a chunk and a batch of its own. *)
Definition split_text : str :=
  of_string "x" ++ [10%N] ++ repeat 122%N (Z.to_nat 19999) ++ [10%N]
  ++ of_string "y" ++ [10%N].

Definition split_file : file := (of_string "f.txt", Some split_text).

Definition batch_1 : batch :=
  [mkChunk (of_string "f.txt[1:]") (of_string "x" ++ [10%N]) 0].

Definition batch_2 : batch :=
  [mkChunk (of_string "f.txt[2:]")
     (repeat 122%N (Z.to_nat 19999) ++ [10%N]) 1].

Definition batch_3 : batch :=
  [mkChunk (of_string "f.txt[3:]") (of_string "y" ++ [10%N]) 2].

(** A service that answers the request for the first batch with "x", the
    one for the third with "y" and any other with no content; it tells the
    requests apart by the first label in the message. *)
Fixpoint starts_with (prefix s : str) : bool :=
  match prefix, s with
  | [], _ => true
  | _ :: _, [] => false
  | x :: prefix', y :: s' => N.eqb x y && starts_with prefix' s'
  end.

Definition request_head (query label : str) : str :=
  of_string "Search query: " ++ query ++ [10; 10]%N
  ++ of_string "=== FILE: " ++ label ++ of_string " ===".

Definition split_service (query : str) (msg : str) (attempt : nat) : reply :=
  if starts_with (request_head query (of_string "f.txt[1:]")) msg
  then Response 200 (Message (Some (of_string "x")))
  else if starts_with (request_head query (of_string "f.txt[3:]")) msg
  then Response 200 (Message (Some (of_string "y")))
  else Response 200 (Message None).

Definition run_123 : list completion :=
  [(batch_1, Returned (Some (of_string "x")));
   (batch_2, Returned (Some []));
   (batch_3, Returned (Some (of_string "y")))].

Definition run_321 : list completion :=
  [(batch_3, Returned (Some (of_string "y")));
   (batch_2, Returned (Some []));
   (batch_1, Returned (Some (of_string "x")))].

Example split_file_batches :
  pack_batches [split_file] = [batch_1; batch_2; batch_3].
Proof. by_vm. Qed.

Example split_file_dispatch :
  dispatch (of_string "q") (split_service (of_string "q"))
    (pack_batches [split_file])
  = [(batch_1, Returned (Some (of_string "x")));
     (batch_2, Returned (Some []));
     (batch_3, Returned (Some (of_string "y")))].
Proof. by_vm. Qed.

Example split_file_outputs :
  stdout (main_loop false run_123)
  = [of_string "f.txt:1:x"; of_string "f.txt:3:y"]
  /\ stdout (main_loop false run_321)
     = [of_string "f.txt:3:y"; of_string "f.txt:1:x"].
Proof. split; by_vm. Qed.

(** C1 as stated fails: the batches of [split_file], completing in the
    order 3, 2, 1 instead of 1, 2, 3, print line 3 of the file before its
    line 1. *)
Lemma output_follows_completion_order :
  Permutation run_123 run_321
  /\ map fst run_123 = pack_batches [split_file]
  /\ stdout (main_loop false run_123) <> stdout (main_loop false run_321)
  /\ stdout (main_loop false run_321)
     = [of_string "f.txt:3:y"; of_string "f.txt:1:x"].
Proof.
  split; [|split; [|split]].
  - unfold run_123, run_321.
    eapply perm_trans; [apply perm_skip, perm_swap|].
    eapply perm_trans; [apply perm_swap|].
    apply perm_skip, perm_swap.
  - by_vm.
  - intros H.
    assert (E : hd [] (stdout (main_loop false run_123))
                = hd [] (stdout (main_loop false run_321)))
      by (rewrite H; reflexivity).
    vm_compute in E. discriminate E.
  - by_vm.
Qed.

(** C1, as the code has it. The result of each completed batch is, file by
    file, without repetition and ascending by line number, and the run
    prints these results one after the other in the order of completion.
    Another order of completion gives the same results in another order;
    in the plain format it prints the same lines in another order. *)
Theorem batch_results_in_completion_order (is_tty : bool)
  (completed completed' : list completion) :
  Permutation completed completed' ->
  stdout (main_loop is_tty completed)
  = present is_tty false (map result_of completed)
  /\ Forall (Forall (fun kv => NoDup (snd kv)
                               /\ Sorted (fun x y => fst x <= fst y) (snd kv)))
       (map result_of completed)
  /\ Permutation (map result_of completed) (map result_of completed')
  /\ Permutation (stdout (main_loop false completed))
       (stdout (main_loop false completed')).
Proof.
  intros HP. unfold main_loop. split; [|split; [|split]].
  - rewrite main_fold_stdout. reflexivity.
  - apply Forall_map. apply Forall_forall. intros fut _.
    apply result_of_sorted.
  - apply Permutation_map. exact HP.
  - rewrite !main_fold_stdout. simpl. rewrite !present_pipe.
    apply Permutation_flat_map, Permutation_map. exact HP.
Qed.

(** C1 on the two completion orders of [split_file]. *)
Lemma batch_results_in_completion_order_witness :
  stdout (main_loop false run_123)
  = present false false (map result_of run_123)
  /\ Forall (Forall (fun kv => NoDup (snd kv)
                               /\ Sorted (fun x y => fst x <= fst y) (snd kv)))
       (map result_of run_123)
  /\ Permutation (map result_of run_123) (map result_of run_321)
  /\ Permutation (stdout (main_loop false run_123))
       (stdout (main_loop false run_321)).
Proof.
  apply (batch_results_in_completion_order false run_123 run_321).
  unfold run_123, run_321.
  eapply perm_trans; [apply perm_skip, perm_swap|].
  eapply perm_trans; [apply perm_swap|].
  apply perm_skip, perm_swap.
Defined.

(** C6. The run ends with a non-zero exit code only when no completed
    batch has a match, and then nothing was printed; a batch that has
    matches makes the run end with exit code 0 with its result in the
    output, whatever happened to the other batches; and the exit code is
    the one of the run without its failed calls. *)
Theorem run_fails_only_without_matches (is_tty : bool)
  (completed : list completion) :
  let st := main_loop is_tty completed in
  (exit_code st <> 0 ->
     (forall b output,
         In (b, Returned output) completed -> match_results output b = [])
     /\ stdout st = [])
  /\ (forall b output,
         In (b, Returned output) completed ->
         match_results output b <> [] ->
         exit_code st = 0
         /\ exists pre p post,
             stdout st
             = pre ++ block is_tty p (match_results output b) ++ post)
  /\ exit_code st = exit_code (main_loop is_tty (filter succeeded completed)).
Proof.
  cbv zeta. unfold exit_code, main_loop.
  rewrite !main_fold_found, !main_fold_stdout. simpl.
  split; [|split].
  - intros Hx.
    destruct (existsb (fun fut => truthy (result_of fut)) completed) eqn:E;
      [congruence|].
    assert (Hall : forall fut, In fut completed -> result_of fut = []).
    { intros fut Hin. apply truthy_false.
      destruct (truthy (result_of fut)) eqn:Et; [|reflexivity].
      assert (existsb (fun fut => truthy (result_of fut)) completed = true)
        by (apply existsb_exists; exists fut; split; assumption).
      congruence. }
    split.
    + intros b output Hin. apply (Hall _ Hin).
    + apply present_all_nil. apply Forall_map, Forall_forall. exact Hall.
  - intros b output Hin Hne.
    assert (E : existsb (fun fut => truthy (result_of fut)) completed = true).
    { apply existsb_exists. exists (b, Returned output). split; [exact Hin|].
      unfold result_of. simpl. destruct (match_results output b);
        [congruence|reflexivity]. }
    rewrite E. split; [reflexivity|].
    apply (present_In is_tty (result_of (b, Returned output))).
    apply in_map. exact Hin.
  - rewrite <- found_succeeded. reflexivity.
Qed.

(** One call fails for good, another one has a match. *)
Definition failed_and_matched : list completion :=
  [(batch_3, Raised (HTTPStatusError 503));
   (batch_1, Returned (Some (of_string "x")))].

(** C6 on [failed_and_matched]: exit code 0, and the match is printed. *)
Lemma run_fails_only_without_matches_witness :
  exit_code (main_loop false failed_and_matched) = 0
  /\ exists pre p post,
      stdout (main_loop false failed_and_matched)
      = pre ++ block false p (match_results (Some (of_string "x")) batch_1)
        ++ post.
Proof.
  apply (proj1 (proj2 (run_fails_only_without_matches false
                         failed_and_matched))
           batch_1 (Some (of_string "x"))).
  - right. left. reflexivity.
  - vm_compute. discriminate.
Defined.

(** ** Dispatcher *)

(** A reply that makes [call_llm] try again. *)
Definition transient_reply (r : reply) : Prop :=
  exists status_code body,
    r = Response status_code body /\ transient status_code = true.

(** How the call ends on a reply that is not retried. *)
Definition final_outcome (r : reply) : outcome :=
  match r with
  | TransportError => Raised RequestError
  | Response status_code body =>
      if raise_for_status status_code
      then Raised (HTTPStatusError status_code)
      else
        match body with
        | BadBody => Raised BodyError
        | Message text => Returned (Some (message_text text))
        end
  end.

(** The effects of [k] attempts that were retried: each request is followed
    by a sleep of [2 ** attempt] seconds. *)
Definition backoff (k : nat) : list effect :=
  flat_map (fun attempt => [Post; Sleep (2 ^ Z.of_nat attempt)]) (seq 0 k).

Lemma transient_raises (status_code : Z) :
  transient status_code = true -> raise_for_status status_code = true.
Proof.
  unfold transient. simpl. rewrite !orb_true_iff, !Z.eqb_eq.
  intros [->|[->|[->|[->|H]]]]; try reflexivity. discriminate H.
Qed.

Lemma posts_app (l1 l2 : list effect) : posts (l1 ++ l2) = (posts l1 + posts l2)%nat.
Proof. unfold posts. rewrite filter_app, length_app. reflexivity. Qed.

Section Attempts.

Variable service : nat -> reply.

Lemma attempts_retry (attempt : nat) (rest : list nat) (r : option Z)
  (log : list effect) (status_code : Z) (body : message) :
  service attempt = Response status_code body ->
  transient status_code = true ->
  attempts service (attempt :: rest) r log
  = attempts service rest (Some status_code)
      (log ++ [Post; Sleep (2 ^ Z.of_nat attempt)]).
Proof. intros E T. simpl. rewrite E, T. reflexivity. Qed.

Lemma attempts_final (attempt : nat) (rest : list nat) (r : option Z)
  (log : list effect) :
  ~ transient_reply (service attempt) ->
  attempts service (attempt :: rest) r log
  = (final_outcome (service attempt), log ++ [Post]).
Proof.
  intros H. simpl. destruct (service attempt) as [|status_code body];
    [reflexivity|].
  destruct (transient status_code) eqn:T.
  - exfalso. apply H. exists status_code, body. split; [reflexivity|exact T].
  - simpl. destruct (raise_for_status status_code); [reflexivity|].
    destruct body; reflexivity.
Qed.

Lemma attempts_posts (rng : list nat) :
  forall r log,
    (posts (snd (attempts service rng r log)) <= posts log + List.length rng)%nat.
Proof.
  assert (P1 : forall log, posts (log ++ [Post]) = S (posts log)).
  { intros log. rewrite posts_app. unfold posts at 2. simpl. lia. }
  induction rng as [|attempt rest IH]; intros r log;
    cbn [attempts List.length].
  - destruct r as [status_code|]; [|cbn [snd]; lia].
    destruct (raise_for_status status_code); cbn [snd]; lia.
  - destruct (service attempt) as [|status_code body].
    + cbn [snd]. rewrite P1. lia.
    + destruct (transient status_code).
      * specialize (IH (Some status_code)
                       (log ++ [Post; Sleep (2 ^ Z.of_nat attempt)])).
        rewrite posts_app in IH. unfold posts at 3 in IH. simpl in IH. lia.
      * destruct (raise_for_status status_code);
          [|destruct body]; cbn [snd]; rewrite P1; lia.
Qed.

End Attempts.

(** C5. One call sends at most three requests. While the replies are
    transient (429, 502, 503 or 504) the call sleeps [2 ** attempt] seconds
    and tries again; the first reply that is not transient ends it at
    once, with an exception when it is a failure; and after three transient
    replies the exception for the last status leaves the call. In the
    loop of [main] every batch is submitted, each failed call is reported
    once with the labels of its batch, and what is printed and found is
    what the run without the failed calls prints and finds. *)
Theorem call_llm_retries_and_isolation :
  (forall (query : str) (b : batch) (service : str -> nat -> reply),
      let replies := service (user_msg query b) in
      (posts (snd (call_llm query b service)) <= 3)%nat
      /\ (forall k,
             (k < 3)%nat ->
             (forall j, (j < k)%nat -> transient_reply (replies j)) ->
             ~ transient_reply (replies k) ->
             call_llm query b service
             = (final_outcome (replies k), backoff k ++ [Post]))
      /\ ((forall j, (j < 3)%nat -> transient_reply (replies j)) ->
          exists status_code body,
            replies 2%nat = Response status_code body
            /\ call_llm query b service
               = (Raised (HTTPStatusError status_code), backoff 3)))
  /\ (forall status_code body,
         transient status_code = false ->
         raise_for_status status_code = true ->
         final_outcome (Response status_code body)
         = Raised (HTTPStatusError status_code))
  /\ (forall query service batches,
         map fst (dispatch query service batches) = batches)
  /\ (forall is_tty completed,
         stderr (main_loop is_tty completed) = flat_map failure_of completed
         /\ stdout (main_loop is_tty completed)
            = stdout (main_loop is_tty (filter succeeded completed))
         /\ found (main_loop is_tty completed)
            = found (main_loop is_tty (filter succeeded completed))).
Proof.
  split; [|split; [|split]].
  - intros query b service. cbv zeta. unfold call_llm.
    change (range 0 3) with [0; 1; 2]%nat.
    set (replies := service (user_msg query b)).
    split; [|split].
    + apply (attempts_posts replies [0; 1; 2]%nat None []).
    + intros k Hk Hprev Hfinal.
      destruct k as [|[|[|k]]]; [| | |lia].
      * rewrite attempts_final by exact Hfinal. reflexivity.
      * destruct (Hprev 0%nat ltac:(lia)) as (s0 & b0 & E0 & T0).
        rewrite (attempts_retry replies _ _ _ _ _ _ E0 T0).
        rewrite attempts_final by exact Hfinal. reflexivity.
      * destruct (Hprev 0%nat ltac:(lia)) as (s0 & b0 & E0 & T0).
        destruct (Hprev 1%nat ltac:(lia)) as (s1 & b1 & E1 & T1).
        rewrite (attempts_retry replies _ _ _ _ _ _ E0 T0).
        rewrite (attempts_retry replies _ _ _ _ _ _ E1 T1).
        rewrite attempts_final by exact Hfinal. reflexivity.
    + intros Hall.
      destruct (Hall 0%nat ltac:(lia)) as (s0 & b0 & E0 & T0).
      destruct (Hall 1%nat ltac:(lia)) as (s1 & b1 & E1 & T1).
      destruct (Hall 2%nat ltac:(lia)) as (s2 & b2 & E2 & T2).
      exists s2, b2. split; [exact E2|].
      rewrite (attempts_retry replies _ _ _ _ _ _ E0 T0).
      rewrite (attempts_retry replies _ _ _ _ _ _ E1 T1).
      rewrite (attempts_retry replies _ _ _ _ _ _ E2 T2).
      simpl. rewrite (transient_raises s2 T2). reflexivity.
  - intros status_code body _ H. simpl. rewrite H. reflexivity.
  - intros query service batches. unfold dispatch. rewrite map_map. simpl.
    apply map_id.
  - intros is_tty completed. unfold main_loop.
    rewrite main_fold_stderr, !main_fold_stdout, !main_fold_found. simpl.
    rewrite <- present_succeeded, <- found_succeeded. auto.
Qed.

(** Replies for one call: by attempt. *)
Definition busy_twice (msg : str) (attempt : nat) : reply :=
  match attempt with
  | 0%nat => Response 429 BadBody
  | 1%nat => Response 503 BadBody
  | _ => Response 200 (Message (Some (of_string " x ")))
  end.

Definition always_busy (msg : str) (attempt : nat) : reply :=
  Response 429 BadBody.

Definition unauthorized (msg : str) (attempt : nat) : reply :=
  Response 401 BadBody.

(** C5 on three services: two transient replies and then an answer, which
    is returned trimmed after sleeps of 1 and 2 seconds; only transient
    replies, which end in the exception for status 429 after three
    requests; and a reply with status 401, which ends the call at once. *)
Lemma call_llm_retries_and_isolation_witness :
  call_llm (of_string "q") batch_1 busy_twice
  = (Returned (Some (of_string "x")),
     [Post; Sleep 1; Post; Sleep 2; Post])
  /\ (exists status_code body,
         always_busy (user_msg (of_string "q") batch_1) 2%nat
         = Response status_code body
         /\ call_llm (of_string "q") batch_1 always_busy
            = (Raised (HTTPStatusError status_code),
               [Post; Sleep 1; Post; Sleep 2; Post; Sleep 4]))
  /\ call_llm (of_string "q") batch_1 unauthorized
     = (Raised (HTTPStatusError 401), [Post]).
Proof.
  pose proof (proj1 call_llm_retries_and_isolation (of_string "q") batch_1)
    as H.
  split; [|split].
  - destruct (H busy_twice) as (_ & Hk & _).
    apply (Hk 2%nat); [lia| |].
    + intros j Hj. destruct j as [|[|j]]; [| |lia].
      * exists 429, BadBody. split; reflexivity.
      * exists 503, BadBody. split; reflexivity.
    + intros (s & b & E & T). injection E as <- _. discriminate T.
  - destruct (H always_busy) as (_ & _ & Hall). apply Hall.
    intros j _. exists 429, BadBody. split; reflexivity.
  - destruct (H unauthorized) as (_ & Hk & _).
    apply (Hk 0%nat); [lia| |].
    + intros j Hj. lia.
    + intros (s & b & E & T). injection E as <- _. discriminate T.
Defined.

(** * Further properties of the code *)

(** ** Reconciler: what [find_lines] keeps and what it finds *)

Section ReconcilerInvariant.

Variable src : list str.
Variable offset : Z.

(** The recorded numbers are the numbers of the records, and none is there
    twice. *)
Definition finder_inv (st : finder_state) : Prop :=
  let '(results, seen, idx) := st in
  seen = rev (map fst results) /\ NoDup seen.

Lemma find_step_finder_inv (st : finder_state) (ml : str) :
  finder_inv st -> finder_inv (find_step src offset st ml).
Proof.
  destruct st as [[results seen] idx]. intros [Hseen Hnd].
  destruct (find_step_cases src offset results seen idx ml)
    as [[_ ->]|[(_ & i & Hi & ->)|[(_ & _ & i & Hi & ->)|(_ & _ & ->)]]];
    try (split; assumption);
    destruct Hi as (_ & (_ & _ & Hnew) & _); split;
      [rewrite Hseen, map_app, rev_app_distr; reflexivity
      |constructor; assumption
      |rewrite Hseen, map_app, rev_app_distr; reflexivity
      |constructor; assumption].
Qed.

Lemma find_fold_finder_inv (matched : list str) :
  forall st : finder_state, finder_inv st ->
    finder_inv (fold_left (find_step src offset) matched st).
Proof.
  induction matched as [|ml matched IH]; intros st H; simpl; [exact H|].
  apply IH, find_step_finder_inv, H.
Qed.

(** Records are only added, at the end. *)
Lemma find_step_grows (st : finder_state) (ml : str) :
  exists extra,
    fst (fst (find_step src offset st ml)) = fst (fst st) ++ extra
    /\ (List.length extra <= 1)%nat
    /\ (strip ml = [] -> extra = [])
    /\ Forall (fun r => strip (snd r) = strip ml) extra.
Proof.
  destruct st as [[results seen] idx].
  destruct (find_step_cases src offset results seen idx ml)
    as [[Hs ->]|[(Hs & i & Hi & ->)|[(Hs & _ & i & Hi & ->)|(Hs & _ & ->)]]];
    simpl.
  - exists []. rewrite app_nil_r. repeat split; auto.
  - eexists. split; [reflexivity|]. split; [simpl; lia|].
    split; [contradiction|]. constructor; [|constructor].
    simpl. apply Hi.
  - eexists. split; [reflexivity|]. split; [simpl; lia|].
    split; [contradiction|]. constructor; [|constructor].
    simpl. apply Hi.
  - exists []. rewrite app_nil_r. repeat split; auto.
Qed.

Lemma find_fold_grows (matched : list str) :
  forall st : finder_state, exists extra,
    fst (fst (fold_left (find_step src offset) matched st))
    = fst (fst st) ++ extra.
Proof.
  induction matched as [|ml matched IH]; intros st; cbn [fold_left].
  - exists []. rewrite app_nil_r. reflexivity.
  - destruct (IH (find_step src offset st ml)) as (e2 & E2).
    destruct (find_step_grows st ml) as (e1 & E1 & _).
    exists (e1 ++ e2). rewrite E2, E1, app_assoc. reflexivity.
Qed.

(** Every record answers a response line: its text, trimmed, is a response
    line, trimmed, and that one is not blank. *)
Lemma find_fold_answers (M : list str) (matched : list str) :
  forall st : finder_state,
    incl matched M ->
    Forall (fun r => exists ml, In ml M /\ strip ml <> []
                                /\ strip (snd r) = strip ml) (fst (fst st)) ->
    Forall (fun r => exists ml, In ml M /\ strip ml <> []
                                /\ strip (snd r) = strip ml)
      (fst (fst (fold_left (find_step src offset) matched st))).
Proof.
  induction matched as [|ml matched IH]; intros st Hincl H;
    cbn [fold_left]; [exact H|].
  apply IH; [intros x Hx; apply Hincl; right; exact Hx|].
  destruct (find_step_grows st ml) as (extra & -> & _ & Hblank & Hextra).
  apply Forall_app. split; [exact H|].
  destruct extra as [|r extra]; [constructor|].
  eapply Forall_impl; [|exact Hextra]. intros r' Hr'. exists ml.
  split; [apply Hincl; left; reflexivity|]. split; [|exact Hr'].
  intros Hs. specialize (Hblank Hs). discriminate Hblank.
Qed.

(** After a response line that is trimmed-equal to a line of the chunk, a
    record with that trimmed text is there. *)
Lemma find_step_finds (st : finder_state) (ml : str) (i : nat) :
  finder_inv st ->
  Forall (from_source src offset) (fst (fst st)) ->
  strip ml <> [] ->
  (i < List.length src)%nat ->
  strip (nth i src []) = strip ml ->
  exists r, In r (fst (fst (find_step src offset st ml)))
            /\ strip (snd r) = strip ml.
Proof.
  destruct st as [[results seen] idx]. intros [Hseen Hnd] Hsrc Hs Hi Heq.
  destruct (find_step_cases src offset results seen idx ml)
    as [[Hs' _]|[(_ & j & Hj & ->)|[(_ & _ & j & Hj & ->)|(_ & Hnone & ->)]]];
    simpl in *.
  - contradiction.
  - eexists. split; [apply in_or_app; right; left; reflexivity|].
    simpl. apply Hj.
  - eexists. split; [apply in_or_app; right; left; reflexivity|].
    simpl. apply Hj.
  - assert (Hin : In (offset + Z.of_nat i + 1) seen).
    { destruct (in_dec Z.eq_dec (offset + Z.of_nat i + 1) seen) as [H|H];
        [exact H|].
      exfalso. apply (Hnone i). repeat split; assumption. }
    rewrite Hseen in Hin. apply in_rev in Hin.
    apply in_map_iff in Hin as (r & Hr & Hrin).
    exists r. split; [exact Hrin|].
    rewrite Forall_forall in Hsrc.
    destruct (Hsrc r Hrin) as (i' & Hn & Hg).
    assert (i' = i) by lia. subst i'.
    rewrite (nth_error_nth' src [] Hi) in Hn. injection Hn as <-. exact Heq.
Qed.

Lemma find_fold_finds (matched : list str) :
  forall (st : finder_state) ml i,
    finder_inv st ->
    Forall (from_source src offset) (fst (fst st)) ->
    In ml matched ->
    strip ml <> [] ->
    (i < List.length src)%nat ->
    strip (nth i src []) = strip ml ->
    exists r,
      In r (fst (fst (fold_left (find_step src offset) matched st)))
      /\ strip (snd r) = strip ml.
Proof.
  induction matched as [|m matched IH]; intros st ml i Hinv Hsrc Hin Hs Hi Heq;
    [contradiction|].
  cbn [fold_left]. destruct Hin as [->|Hin].
  - destruct (find_step_finds st ml i Hinv Hsrc Hs Hi Heq) as (r & Hr & Er).
    destruct (find_fold_grows matched (find_step src offset st ml))
      as (extra & ->).
    exists r. split; [apply in_or_app; left; exact Hr|exact Er].
  - apply (IH _ ml i); try assumption.
    + apply find_step_finder_inv. exact Hinv.
    + apply find_step_from_source. exact Hsrc.
Qed.

(** At most one record for each response line that is not blank. *)
Lemma find_fold_count (matched : list str) :
  forall st : finder_state,
    (List.length (fst (fst (fold_left (find_step src offset) matched st)))
     <= List.length (fst (fst st))
        + List.length (filter (fun ml => truthy (strip ml)) matched))%nat.
Proof.
  induction matched as [|ml matched IH]; intros st;
    cbn [fold_left filter]; [simpl; lia|].
  specialize (IH (find_step src offset st ml)).
  destruct (find_step_grows st ml) as (extra & E & Hlen & Hblank & _).
  rewrite E, length_app in IH.
  destruct (truthy (strip ml)) eqn:Ht; simpl.
  - lia.
  - apply truthy_false in Ht. rewrite (Hblank Ht) in IH. simpl in IH. lia.
Qed.

End ReconcilerInvariant.

Lemma find_run_numbers_nodup (src : list str) (offset : Z)
  (matched : list str) :
  NoDup (map fst (fst (fst (fold_left (find_step src offset) matched
                              ([], [], 0%nat))))).
Proof.
  pose proof (find_fold_finder_inv src offset matched ([], [], 0%nat)) as H.
  destruct (fold_left (find_step src offset) matched ([], [], 0%nat))
    as [[results seen] idx].
  destruct H as [Hseen Hnd]; [split; [reflexivity|constructor]|].
  simpl. rewrite Hseen in Hnd. apply NoDup_rev in Hnd.
  rewrite rev_involutive in Hnd. exact Hnd.
Qed.

(** X1. No duplication: no two records of [find_lines] have the same
    global line number, and every number lies between [offset + 1] and
    [offset] plus the number of lines of the chunk. *)
Theorem find_lines_no_duplicate_line (content : str) (offset : Z)
  (matched : list str) :
  NoDup (map fst (find_lines content offset matched))
  /\ Forall (fun r => offset + 1 <= fst r
                      <= offset + len (splitlines false content))
       (find_lines content offset matched).
Proof.
  unfold find_lines. split; [apply find_run_numbers_nodup|].
  eapply Forall_impl;
    [|apply find_fold_from_source with (st := ([], [], 0%nat)); constructor].
  intros r (i & Hi & Hg).
  assert ((i < List.length (splitlines false content))%nat)
    by (apply nth_error_Some; congruence).
  unfold len. lia.
Qed.

(** X2. Every record of [find_lines] answers the response: its text,
    trimmed, equals some response line, trimmed, and that line is not
    blank. *)
Theorem find_lines_answers_response (content : str) (offset : Z)
  (matched : list str) :
  Forall (fun r => exists ml, In ml matched /\ strip ml <> []
                              /\ strip (snd r) = strip ml)
    (find_lines content offset matched).
Proof.
  unfold find_lines. apply find_fold_answers; [apply incl_refl|constructor].
Qed.

(** X3. A response line that is not blank and is trimmed-equal to a line of
    the chunk is never lost: some record carries a line with that trimmed
    text. *)
Theorem find_lines_finds_matching_line (content : str) (offset : Z)
  (matched : list str) (ml line : str) :
  In ml matched ->
  strip ml <> [] ->
  In line (splitlines false content) ->
  strip line = strip ml ->
  exists r, In r (find_lines content offset matched)
            /\ strip (snd r) = strip ml.
Proof.
  intros Hml Hs Hline Heq. unfold find_lines.
  apply In_nth_error in Hline as (i & Hi).
  assert (Hlt : (i < List.length (splitlines false content))%nat).
  { apply nth_error_Some. congruence. }
  apply (find_fold_finds _ offset matched _ ml i); try assumption.
  - split; [reflexivity|constructor].
  - constructor.
  - rewrite (nth_error_nth _ _ _ Hi). exact Heq.
Qed.

(** X3 on a chunk of two lines and a response with spaces around it. *)
Lemma find_lines_finds_matching_line_witness :
  exists r,
    In r (find_lines (join [10%N] [of_string "a"; of_string "  b"]) 0
            [of_string "b  "])
    /\ strip (snd r) = strip (of_string "b  ").
Proof.
  apply (find_lines_finds_matching_line
           (join [10%N] [of_string "a"; of_string "  b"]) 0
           [of_string "b  "] (of_string "b  ") (of_string "  b")).
  - left. reflexivity.
  - discriminate.
  - right. left. reflexivity.
  - reflexivity.
Defined.

(** X4. [find_lines] returns at most one record for each response line
    that is not blank, and at most one for each line of the chunk. *)
Theorem find_lines_count (content : str) (offset : Z) (matched : list str) :
  (List.length (find_lines content offset matched)
   <= List.length (filter (fun ml => truthy (strip ml)) matched))%nat
  /\ (List.length (find_lines content offset matched)
      <= List.length (splitlines false content))%nat.
Proof.
  split.
  - unfold find_lines.
    apply (find_fold_count (splitlines false content) offset matched
             ([], [], 0%nat)).
  - assert (H1 : (List.length (map fst (find_lines content offset matched))
                  <= List.length
                       (map (fun i => (offset + Z.of_nat i + 1)%Z)
                          (seq 0 (List.length (splitlines false content)))))%nat).
    2:{ rewrite !length_map, length_seq in H1. exact H1. }
    apply NoDup_incl_length; [apply find_run_numbers_nodup|].
    intros g Hg. apply in_map_iff in Hg as (r & <- & Hr).
    pose proof (find_fold_from_source (splitlines false content) offset
                  matched ([], [], 0%nat) (Forall_nil _)) as H.
    rewrite Forall_forall in H. destruct (H r Hr) as (i & Hi & Hg).
    apply in_map_iff. exists i. split; [symmetry; exact Hg|].
    apply in_seq. split; [lia|]. simpl. apply nth_error_Some. congruence.
Qed.

(** ** Batcher: order, emptiness and tightness *)

(** [size > MAX_CHARS] for a chunk. *)
Definition oversized_chunk (c : chunk) : bool :=
  len (content c) >? MAX_CHARS.

Definition regular_chunk (c : chunk) : bool := negb (oversized_chunk c).

(** The open batch holds regular chunks only, and no closed batch is
    empty. *)
Definition packer_shape (st : packer_state) : Prop :=
  let '(batches, cur, cur_len) := st in
  Forall (fun c => regular_chunk c = true) cur
  /\ Forall (fun b => b <> []) batches.

Lemma filter_none {A : Type} (f : A -> bool) (l : list A) :
  Forall (fun x => f x = false) l -> filter f l = [].
Proof.
  induction 1 as [|x l Hx _ IH]; simpl; [reflexivity|].
  rewrite Hx. exact IH.
Qed.

Lemma pack_step_shape (st : packer_state) (c : chunk) :
  packer_shape st -> packer_shape (pack_step st c).
Proof.
  destruct st as [[batches cur] cur_len]. intros [Hcur Hb].
  unfold pack_step, packer_shape.
  destruct (len (content c) >? MAX_CHARS) eqn:E1.
  - split; [exact Hcur|]. apply Forall_app. split; [exact Hb|].
    constructor; [discriminate|constructor].
  - assert (Hc : regular_chunk c = true)
      by (unfold regular_chunk, oversized_chunk; rewrite E1; reflexivity).
    destruct (cur_len + len (content c) >? MAX_CHARS).
    + split; [constructor; [exact Hc|constructor]|].
      destruct (truthy cur) eqn:Ht; [|exact Hb].
      apply Forall_app. split; [exact Hb|].
      constructor; [apply truthy_true; exact Ht|constructor].
    + split; [|exact Hb]. apply Forall_app. split; [exact Hcur|].
      constructor; [exact Hc|constructor].
Qed.

Lemma pack_fold_shape (chunks : list chunk) :
  forall st : packer_state,
    packer_shape st -> packer_shape (fold_left pack_step chunks st).
Proof.
  induction chunks as [|c chunks IH]; intros st H; cbn [fold_left];
    [exact H|].
  apply IH, pack_step_shape, H.
Qed.

Lemma pack_step_order (st : packer_state) (c : chunk) :
  packer_shape st ->
  filter regular_chunk (packed (pack_step st c))
  = filter regular_chunk (packed st ++ [c])
  /\ filter oversized_chunk (packed (pack_step st c))
     = filter oversized_chunk (packed st ++ [c]).
Proof.
  destruct st as [[batches cur] cur_len]. intros [Hcur _].
  assert (Hno : filter oversized_chunk cur = []).
  { apply filter_none. eapply Forall_impl; [|exact Hcur].
    intros x Hx. unfold regular_chunk in Hx.
    destruct (oversized_chunk x); [discriminate|reflexivity]. }
  unfold pack_step.
  destruct (len (content c) >? MAX_CHARS) eqn:E1.
  - assert (Hc : oversized_chunk c = true) by exact E1.
    assert (Hr : regular_chunk c = false)
      by (unfold regular_chunk; rewrite Hc; reflexivity).
    simpl. rewrite concat_app. simpl.
    rewrite !filter_app. simpl. rewrite Hc, Hr, Hno, !app_nil_r.
    split; reflexivity.
  - destruct (cur_len + len (content c) >? MAX_CHARS).
    + destruct (truthy cur) eqn:Ht; simpl.
      * rewrite concat_app. simpl. rewrite app_nil_r, <- app_assoc.
        split; reflexivity.
      * apply truthy_false in Ht. subst cur. rewrite app_nil_r.
        split; reflexivity.
    + simpl. rewrite app_assoc. split; reflexivity.
Qed.

Lemma pack_fold_order (chunks : list chunk) :
  forall st : packer_state,
    packer_shape st ->
    filter regular_chunk (packed (fold_left pack_step chunks st))
    = filter regular_chunk (packed st ++ chunks)
    /\ filter oversized_chunk (packed (fold_left pack_step chunks st))
       = filter oversized_chunk (packed st ++ chunks).
Proof.
  induction chunks as [|c chunks IH]; intros st H; cbn [fold_left].
  - rewrite app_nil_r. split; reflexivity.
  - destruct (IH (pack_step st c) (pack_step_shape st c H)) as [E1 E2].
    destruct (pack_step_order st c H) as [F1 F2].
    replace (packed st ++ c :: chunks) with ((packed st ++ [c]) ++ chunks)
      by (rewrite <- app_assoc; reflexivity).
    rewrite E1, E2, !filter_app, F1, F2, !filter_app.
    split; reflexivity.
Qed.

(** X5. The Batcher keeps the input order but for oversized chunks: read
    batch by batch, the chunks of at most [MAX_CHARS] characters come in
    the order of the input, and so do the oversized ones. *)
Theorem pack_chunks_keeps_order (chunks : list chunk) :
  filter regular_chunk (concat (pack_chunks chunks))
  = filter regular_chunk chunks
  /\ filter oversized_chunk (concat (pack_chunks chunks))
     = filter oversized_chunk chunks.
Proof.
  unfold pack_chunks. rewrite pack_finish_packed.
  apply (pack_fold_order chunks ([], [], 0)).
  split; constructor.
Qed.

Lemma concat_length_nonempty {A : Type} (ls : list (list A)) :
  Forall (fun l => l <> []) ls ->
  (List.length ls <= List.length (concat ls))%nat.
Proof.
  induction 1 as [|l ls Hl _ IH]; simpl; [lia|].
  rewrite length_app. destruct l; [congruence|]. simpl. lia.
Qed.

(** X6. No batch is empty, so there are at most as many batches as
    chunks; and no chunks give no batch. *)
Theorem pack_chunks_no_empty_batch (chunks : list chunk) :
  Forall (fun b => b <> []) (pack_chunks chunks)
  /\ (List.length (pack_chunks chunks) <= List.length chunks)%nat
  /\ pack_chunks [] = [].
Proof.
  assert (H : Forall (fun b => b <> []) (pack_chunks chunks)).
  { unfold pack_chunks.
    pose proof (pack_fold_shape chunks ([], [], 0)) as Hs.
    destruct (fold_left pack_step chunks ([], [], 0)) as [[batches cur] n].
    destruct Hs as [_ Hb]; [split; constructor|].
    unfold pack_finish. destruct (truthy cur) eqn:Ht; [|exact Hb].
    apply Forall_app. split; [exact Hb|].
    constructor; [apply truthy_true; exact Ht|constructor]. }
  split; [exact H|]. split; [|reflexivity].
  apply concat_length_nonempty in H.
  assert (P : Permutation (concat (pack_chunks chunks)) chunks).
  { unfold pack_chunks. rewrite pack_finish_packed, pack_fold_packed.
    reflexivity. }
  apply Permutation_length in P. unfold batch in *. lia.
Qed.

(** Every batch but the last is followed by a batch whose first chunk did
    not fit into it. *)
Fixpoint tight (batches : list batch) : Prop :=
  match batches with
  | b1 :: ((b2 :: _) as rest) =>
      match b2 with
      | [] => False
      | c :: _ => MAX_CHARS < batch_size b1 + len (content c)
      end
      /\ tight rest
  | _ => True
  end.

Lemma tight_snoc (batches : list batch) (b : batch) (c : chunk) :
  tight (batches ++ [b]) ->
  MAX_CHARS < batch_size b + len (content c) ->
  tight ((batches ++ [b]) ++ [[c]]).
Proof.
  induction batches as [|b1 batches IH]; intros Ht Hc.
  - simpl. split; [exact Hc|exact I].
  - destruct batches as [|b2 batches].
    + simpl in *. destruct Ht as [H1 _]. split; [exact H1|].
      split; [exact Hc|exact I].
    + change (tight (b1 :: ((b2 :: batches) ++ [b]) ++ [[c]])).
      change (tight (b1 :: (b2 :: batches) ++ [b])) in Ht.
      cbn [app] in Ht |- *. cbn [tight] in Ht |- *. destruct Ht as [H1 H2].
      split; [exact H1|]. apply IH; assumption.
Qed.

Lemma tight_extend (batches : list batch) (b : batch) (c : chunk) :
  b <> [] -> tight (batches ++ [b]) -> tight (batches ++ [b ++ [c]]).
Proof.
  intros Hb. induction batches as [|b1 batches IH]; intros Ht.
  - exact I.
  - destruct batches as [|b2 batches].
    + simpl in *. destruct b as [|c0 b]; [congruence|]. exact Ht.
    + cbn [app] in Ht |- *. cbn [tight] in Ht |- *. destruct Ht as [H1 H2].
      split; [exact H1|]. apply IH. exact H2.
Qed.

(** With no oversized chunk: the closed batches and the open one are
    tight, the open one is empty only before the first chunk, and
    [cur_len] is its size. *)
Definition packer_tight (st : packer_state) : Prop :=
  let '(batches, cur, cur_len) := st in
  cur_len = batch_size cur
  /\ ((cur = [] /\ batches = []) \/ (cur <> [] /\ tight (batches ++ [cur]))).

Lemma pack_step_tight (st : packer_state) (c : chunk) :
  len (content c) <= MAX_CHARS ->
  packer_tight st -> packer_tight (pack_step st c).
Proof.
  destruct st as [[batches cur] cur_len]. intros Hc [Hlen Ht].
  unfold pack_step, packer_tight.
  destruct (len (content c) >? MAX_CHARS) eqn:E1; zbool; [lia|].
  destruct (cur_len + len (content c) >? MAX_CHARS) eqn:E2; zbool.
  - split; [simpl; lia|]. right. split; [discriminate|].
    destruct Ht as [[-> ->]|[Hne Ht]].
    + simpl in Hlen. lia.
    + destruct cur as [|c0 cur]; [congruence|]. cbn [truthy].
      apply tight_snoc; [exact Ht|lia].
  - split; [rewrite batch_size_app; simpl; lia|]. right.
    split; [destruct cur; discriminate|].
    destruct Ht as [[-> ->]|[Hne Ht]]; [exact I|].
    apply tight_extend; assumption.
Qed.

Lemma pack_fold_tight (chunks : list chunk) :
  forall st : packer_state,
    Forall (fun c => len (content c) <= MAX_CHARS) chunks ->
    packer_tight st -> packer_tight (fold_left pack_step chunks st).
Proof.
  induction chunks as [|c chunks IH]; intros st Hc H; cbn [fold_left];
    [exact H|].
  inversion Hc; subst. apply IH; [assumption|].
  apply pack_step_tight; assumption.
Qed.

(** X7. The packing is greedy: when no chunk is oversized, the first chunk
    of every batch after the first did not fit into the batch before it. *)
Theorem pack_chunks_tight (chunks : list chunk) :
  Forall (fun c => len (content c) <= MAX_CHARS) chunks ->
  tight (pack_chunks chunks).
Proof.
  intros Hc. unfold pack_chunks.
  pose proof (pack_fold_tight chunks ([], [], 0) Hc) as H.
  destruct (fold_left pack_step chunks ([], [], 0)) as [[batches cur] n].
  destruct H as [_ [[-> ->]|[Hne Ht]]].
  - split; [reflexivity|]. left. split; reflexivity.
  - exact I.
  - unfold pack_finish. destruct cur; [congruence|]. exact Ht.
Qed.

(** X7 on three chunks of 12000 characters: each is a batch of its own. *)
Definition chunk_12k (name : string) : chunk :=
  mkChunk (of_string name) (repeat 120%N (Z.to_nat 12000)) 0.

Lemma pack_chunks_tight_witness :
  tight (pack_chunks [chunk_12k "a"; chunk_12k "b"; chunk_12k "c"]).
Proof.
  apply pack_chunks_tight.
  assert (H : forall name, len (content (chunk_12k name)) <= MAX_CHARS).
  { intros name. unfold chunk_12k. cbn [content]. unfold len.
    rewrite repeat_length, Z2Nat.id; unfold MAX_CHARS; lia. }
  repeat constructor; apply H.
Defined.

(** ** Dispatcher: how a call can end *)

(** Seconds slept in a call. *)
Definition total_sleep (log : list effect) : Z :=
  fold_right (fun e acc => match e with
                           | Sleep seconds => seconds + acc
                           | Post => acc
                           end) 0 log.

Lemma not_raised_is_2xx (status_code : Z) :
  raise_for_status status_code = false -> 200 <= status_code < 300.
Proof.
  unfold raise_for_status. intros H. apply negb_false_iff in H.
  apply andb_true_iff in H as [H1 H2]. zbool. lia.
Qed.

(** One case for each way the replies of a call can go. *)
Ltac reply_cases replies :=
  repeat match goal with
  | |- context [match replies ?k with _ => _ end] =>
      let E := fresh "E" in destruct (replies k) eqn:E
  | |- context [if transient ?s then _ else _] =>
      let T := fresh "T" in destruct (transient s) eqn:T
  | |- context [if raise_for_status ?s then _ else _] =>
      let R := fresh "R" in destruct (raise_for_status s) eqn:R
  | |- context [match ?b with BadBody => _ | Message _ => _ end] =>
      destruct b
  end.

(** X8. A call sends between one and three requests and sleeps at most 7
    seconds. It never returns [None]; and when it returns a text, some
    attempt got a reply with a 2xx status and a message, all attempts
    before it got transient replies, and the text is the content of that
    message, trimmed (empty when the message has none). *)
Theorem call_llm_returns_only_on_success (query : str) (b : batch)
  (service : str -> nat -> reply) :
  let replies := service (user_msg query b) in
  let res := call_llm query b service in
  (1 <= posts (snd res) <= 3)%nat
  /\ total_sleep (snd res) <= 7
  /\ fst res <> Returned None
  /\ forall out,
      fst res = Returned (Some out) ->
      exists k status_code text,
        (k < 3)%nat
        /\ replies k = Response status_code (Message text)
        /\ 200 <= status_code < 300
        /\ out = message_text text
        /\ forall j, (j < k)%nat -> transient_reply (replies j).
Proof.
  cbv zeta. unfold call_llm. change (range 0 3) with [0; 1; 2]%nat.
  set (replies := service (user_msg query b)).
  cbn [attempts]. reply_cases replies;
    try match goal with
        | T : transient ?s = true, R : raise_for_status ?s = false |- _ =>
            rewrite (transient_raises s T) in R; discriminate R
        end;
    (split; [unfold posts; simpl; lia|]);
    (split; [vm_compute; intros H; discriminate H|]);
    (split; [cbn [fst]; discriminate|]);
    cbn [fst]; intros out Hout; try discriminate Hout;
    injection Hout as <-;
    match goal with
    | R : raise_for_status ?s = false, E : replies ?k = Response ?s _ |- _ =>
        exists k; eexists; eexists;
        split; [lia|];
        split; [exact E|];
        split; [apply not_raised_is_2xx; exact R|];
        split; [reflexivity|];
        intros j Hj;
        repeat (destruct j as [|j];
                [eexists; eexists; split; [eassumption|assumption]|]);
        lia
    end.
Qed.

(** ** Labels *)

(** X9. [rel_from_label] returns the part of the label before its first
    '[': a prefix of the label that holds no '[' and is followed, if by
    anything, by '['; applying it again changes nothing. *)
Theorem rel_from_label_prefix (label : str) :
  ~ In 91%N (rel_from_label label)
  /\ (exists rest,
         label = rel_from_label label ++ rest
         /\ (rest = [] \/ exists tail, rest = 91%N :: tail))
  /\ rel_from_label (rel_from_label label) = rel_from_label label.
Proof.
  induction label as [|c label (IH1 & (rest & IH2 & IH3) & IH4)].
  - split; [intros []|]. split; [|reflexivity].
    exists []. split; [reflexivity|left; reflexivity].
  - cbn [rel_from_label]. destruct (N.eqb_spec c 91) as [->|Hc].
    + split; [intros []|]. split; [|reflexivity].
      exists (91%N :: label). split; [reflexivity|].
      right. exists label. reflexivity.
    + split; [|split].
      * intros [H|H]; [congruence|exact (IH1 H)].
      * exists rest. split; [|exact IH3].
        cbn [app]. rewrite <- IH2. reflexivity.
      * cbn [rel_from_label]. destruct (N.eqb_spec c 91); [congruence|].
        rewrite IH4. reflexivity.
Qed.

(** ** The result of one batch *)

Lemma setdefault_extend_keys (results : results_map) (rel : str)
  (m : list record) (k : str) :
  In k (map fst (setdefault_extend results rel m))
  <-> In k (map fst results) \/ k = rel.
Proof.
  induction results as [|[k0 v] results IH]; simpl.
  - split; [intros [H|[]]; auto|intros [[]|H]; auto].
  - destruct (str_eqb k0 rel) eqn:E; simpl.
    + apply str_eqb_eq in E. subst k0. split; [auto|].
      intros [[H|H]|H]; auto.
    + rewrite IH. tauto.
Qed.

Lemma setdefault_extend_nodup (results : results_map) (rel : str)
  (m : list record) :
  NoDup (map fst results) -> NoDup (map fst (setdefault_extend results rel m)).
Proof.
  induction results as [|[k0 v] results IH]; simpl; intros H.
  - constructor; [intros []|constructor].
  - inversion H as [|x l Hk Hnd]; subst.
    destruct (str_eqb k0 rel) eqn:E; simpl.
    + constructor; assumption.
    + constructor; [|apply IH; exact Hnd].
      rewrite setdefault_extend_keys. intros [Hin|Heq]; [exact (Hk Hin)|].
      subst k0. rewrite str_eqb_refl in E. discriminate E.
Qed.

Lemma setdefault_extend_nonempty (results : results_map) (rel : str)
  (m : list record) :
  m <> [] ->
  Forall (fun kv => snd kv <> []) results ->
  Forall (fun kv => snd kv <> []) (setdefault_extend results rel m).
Proof.
  intros Hm. induction results as [|[k0 v] results IH]; simpl; intros H.
  - constructor; [exact Hm|constructor].
  - inversion H; subst. destruct (str_eqb k0 rel); constructor;
      simpl in *; auto.
    destruct v; [congruence|discriminate].
Qed.

Lemma lookup_setdefault_extend (results : results_map) (rel : str)
  (m : list record) (k : str) (r : record) :
  In r (lookup (setdefault_extend results rel m) k)
  <-> In r (lookup results k) \/ (k = rel /\ In r m).
Proof.
  induction results as [|[k0 v] results IH]; simpl.
  - destruct (str_eqb rel k) eqn:E.
    + apply str_eqb_eq in E. subst k. tauto.
    + split; [intros []|]. intros [[]|[-> _]].
      rewrite str_eqb_refl in E. discriminate E.
  - destruct (str_eqb k0 rel) eqn:E; simpl.
    + apply str_eqb_eq in E. subst k0.
      destruct (str_eqb rel k) eqn:E'.
      * apply str_eqb_eq in E'. subst k. rewrite in_app_iff. tauto.
      * split; [auto|]. intros [H|[-> _]]; [exact H|].
        rewrite str_eqb_refl in E'. discriminate E'.
    + destruct (str_eqb k0 k) eqn:E'.
      * apply str_eqb_eq in E'. subst k0. split; [auto|].
        intros [H|[-> _]]; [exact H|].
        rewrite str_eqb_refl in E. discriminate E.
      * exact IH.
Qed.

(** In a [dict], the entry of a key is what [results[key]] gives. *)
Lemma lookup_entry (results : results_map) (rel : str) (ms : list record) :
  NoDup (map fst results) -> In (rel, ms) results -> lookup results rel = ms.
Proof.
  induction results as [|[k0 v] results IH]; simpl; intros Hnd Hin;
    [contradiction|].
  inversion Hnd as [|x l Hk Hnd']; subst. destruct Hin as [E|Hin].
  - injection E as -> ->. rewrite str_eqb_refl. reflexivity.
  - destruct (str_eqb k0 rel) eqn:E; [|apply IH; assumption].
    apply str_eqb_eq in E. subst k0. exfalso. apply Hk.
    apply in_map_iff. exists (rel, ms). split; [reflexivity|exact Hin].
Qed.

Lemma lookup_is_entry (results : results_map) (rel : str) :
  lookup results rel <> [] -> In (rel, lookup results rel) results.
Proof.
  induction results as [|[k0 v] results IH]; simpl; intros H;
    [congruence|].
  destruct (str_eqb k0 rel) eqn:E.
  - apply str_eqb_eq in E. subst k0. left. reflexivity.
  - right. apply IH. exact H.
Qed.

Lemma lookup_sorted_values (results : results_map) (rel : str) :
  lookup (map (fun kv => (fst kv, sorted rec_leb (set_of (snd kv)))) results)
    rel
  = sorted rec_leb (set_of (lookup results rel)).
Proof.
  induction results as [|[k0 v] results IH]; simpl; [reflexivity|].
  destruct (str_eqb k0 rel); [reflexivity|exact IH].
Qed.

Section BatchResult.

Variable lines : list str.

(** The state of the loop over the chunks of a batch is a [dict] whose
    lists are not empty. *)
Definition results_inv (results : results_map) : Prop :=
  NoDup (map fst results) /\ Forall (fun kv => snd kv <> []) results.

Lemma match_chunk_inv (results : results_map) (c : chunk) :
  results_inv results -> results_inv (match_chunk lines results c).
Proof.
  intros [Hk Hv]. unfold match_chunk.
  destruct (truthy (find_lines (content c) (line_offset c) lines)) eqn:Ht;
    [|split; assumption].
  split.
  - apply setdefault_extend_nodup. exact Hk.
  - apply setdefault_extend_nonempty; [apply truthy_true; exact Ht|exact Hv].
Qed.

Lemma match_fold_inv (b : batch) :
  forall results : results_map,
    results_inv results -> results_inv (fold_left (match_chunk lines) b results).
Proof.
  induction b as [|c b IH]; intros results H; cbn [fold_left]; [exact H|].
  apply IH, match_chunk_inv, H.
Qed.

Lemma match_chunk_lookup (results : results_map) (c : chunk) (rel : str)
  (r : record) :
  In r (lookup (match_chunk lines results c) rel)
  <-> In r (lookup results rel)
      \/ (rel = rel_from_label (label c)
          /\ In r (find_lines (content c) (line_offset c) lines)).
Proof.
  unfold match_chunk.
  destruct (truthy (find_lines (content c) (line_offset c) lines)) eqn:Ht.
  - apply lookup_setdefault_extend.
  - apply truthy_false in Ht. rewrite Ht. simpl. tauto.
Qed.

Lemma match_fold_lookup (b : batch) :
  forall (results : results_map) (rel : str) (r : record),
    In r (lookup (fold_left (match_chunk lines) b results) rel)
    <-> In r (lookup results rel)
        \/ exists c, In c b /\ rel = rel_from_label (label c)
                     /\ In r (find_lines (content c) (line_offset c) lines).
Proof.
  induction b as [|c b IH]; intros results rel r; cbn [fold_left].
  - split; [auto|]. intros [H|(c & [] & _)]. exact H.
  - rewrite IH, match_chunk_lookup. split.
    + intros [[H|[H1 H2]]|(c' & Hc' & H)]; auto.
      * right. exists c. split; [left; reflexivity|]. split; assumption.
      * right. exists c'. split; [right; exact Hc'|exact H].
    + intros [H|(c' & [->|Hc'] & H1 & H2)]; auto.
      right. exists c'. auto.
Qed.

End BatchResult.

Lemma sorted_set_nil_iff (l : list record) :
  sorted rec_leb (set_of l) = [] <-> l = [].
Proof.
  split; [|intros ->; reflexivity]. intros H.
  destruct l as [|x l]; [reflexivity|]. exfalso.
  pose proof (proj2 (proj2 (sorted_set_spec (x :: l))) x) as Hx.
  rewrite H in Hx. apply Hx. left. reflexivity.
Qed.

Lemma match_results_shape_aux (output : str) (b : batch) :
  NoDup (map fst (match_results (Some output) b)).
Proof.
  unfold match_results.
  destruct (negb (truthy output) || negb (truthy (strip output)));
    [constructor|].
  destruct (match_fold_inv (splitlines false output) b [])
    as [Hk _]; [split; constructor|].
  rewrite map_map. simpl. exact Hk.
Qed.

(** X10. The result of a batch is a [dict] in good shape: no path twice,
    and no path with an empty list of matches (so that [max] in [fmt_tty]
    always has a match to look at). *)
Theorem match_results_shape (output : option str) (b : batch) :
  NoDup (map fst (match_results output b))
  /\ Forall (fun kv => snd kv <> []) (match_results output b).
Proof.
  unfold match_results. destruct output as [output|];
    [|split; constructor].
  destruct (negb (truthy output) || negb (truthy (strip output)));
    [split; constructor|].
  destruct (match_fold_inv (splitlines false output) b [])
    as [Hk Hv]; [split; constructor|].
  split.
  - rewrite map_map. simpl. exact Hk.
  - apply Forall_map. eapply Forall_impl; [|exact Hv].
    intros kv Hne. simpl. rewrite sorted_set_nil_iff. exact Hne.
Qed.

(** X11. Nothing is lost and nothing is invented between [find_lines] and
    the result of the batch: a record is listed under a path exactly when
    the output is not blank and [find_lines] returns it for a chunk of the
    batch whose label gives that path. *)
Theorem match_results_collects_find_lines (output : str) (b : batch)
  (rel : str) (r : record) :
  (exists ms, In (rel, ms) (match_results (Some output) b) /\ In r ms)
  <-> (strip output <> []
       /\ exists c, In c b /\ rel_from_label (label c) = rel
                    /\ In r (find_lines (content c) (line_offset c)
                               (splitlines false output))).
Proof.
  pose proof (match_results_shape_aux output b) as Hshape.
  assert (Hlook :
    (exists ms, In (rel, ms) (match_results (Some output) b) /\ In r ms)
    <-> In r (lookup (match_results (Some output) b) rel)).
  { split.
    - intros (ms & Hin & Hr).
      rewrite (lookup_entry _ _ _ Hshape Hin). exact Hr.
    - intros Hr. exists (lookup (match_results (Some output) b) rel).
      split; [|exact Hr]. apply lookup_is_entry.
      intros E. rewrite E in Hr. exact Hr. }
  rewrite Hlook. unfold match_results.
  destruct (truthy output) eqn:Ho; cbn [negb orb].
  2:{ apply truthy_false in Ho. subst output. cbn [lookup].
      split; [intros []|intros [H _]; apply H; reflexivity]. }
  destruct (truthy (strip output)) eqn:Hs; cbn [negb].
  2:{ apply truthy_false in Hs. cbn [lookup].
      split; [intros []|intros [H _]; contradiction]. }
  rewrite lookup_sorted_values.
  rewrite (proj2 (proj2 (sorted_set_spec _)) r), match_fold_lookup.
  cbn [lookup]. split.
  - intros [[]|(c & Hc & -> & Hr)]. split; [apply truthy_true; exact Hs|].
    exists c. auto.
  - intros (_ & c & Hc & <- & Hr). right. exists c. auto.
Qed.

(** ** The dry run of [main] *)

(** [sum(sum(len(c) for _,c,_ in b) for b in batches)] *)
Definition dry_run_total (batches : list batch) : Z :=
  fold_right (fun b acc => batch_size b + acc) 0 batches.

(** [[(i, b) for i, b in enumerate(batches)
      if sum(len(c) for _,c,_ in b) > MAX_CHARS]] *)
Definition dry_run_oversized (batches : list batch) : list (Z * batch) :=
  filter (fun ib => batch_size (snd ib) >? MAX_CHARS) (enumerate batches).

(** The characters of the files that can be read. *)
Definition files_size (files : list file) : Z :=
  fold_right (fun f acc => match snd f with
                           | Some text => len text + acc
                           | None => acc
                           end) 0 files.

Lemma batch_size_nonneg (b : batch) : 0 <= batch_size b.
Proof.
  induction b as [|c b IH]; simpl; [lia|].
  pose proof (len_nonneg (content c)). lia.
Qed.

Lemma batch_size_concat (batches : list batch) :
  batch_size (concat batches) = dry_run_total batches.
Proof.
  induction batches as [|b batches IH]; simpl; [reflexivity|].
  rewrite batch_size_app, IH. reflexivity.
Qed.

Lemma batch_size_perm (l l' : list chunk) :
  Permutation l l' -> batch_size l = batch_size l'.
Proof. induction 1; simpl; lia. Qed.

Lemma batch_size_text (chunks : list chunk) :
  batch_size chunks = len (concat (map content chunks)).
Proof.
  induction chunks as [|c chunks IH]; simpl; [reflexivity|].
  rewrite len_app, IH. reflexivity.
Qed.

Lemma chunk_file_concat (rel text : str) :
  concat (map content (chunk_file rel text)) = text.
Proof.
  destruct (Z_le_gt_dec (len text) MAX_CHARS) as [Hs|Hl].
  - rewrite chunk_file_small by exact Hs. simpl. apply app_nil_r.
  - rewrite chunk_file_large by lia. rewrite chunk_finish_held.
    unfold enumerate. rewrite chunk_fold_held. simpl.
    apply splitlines_keepends_concat.
Qed.

Lemma batch_size_all_chunks (files : list file) :
  batch_size (all_chunks files) = files_size files.
Proof.
  induction files as [|[rel [text|]] files IH]; simpl; [reflexivity| |exact IH].
  rewrite batch_size_app, IH, batch_size_text, chunk_file_concat.
  reflexivity.
Qed.

Lemma pack_chunks_perm (chunks : list chunk) :
  Permutation (concat (pack_chunks chunks)) chunks.
Proof.
  unfold pack_chunks. rewrite pack_finish_packed, pack_fold_packed.
  reflexivity.
Qed.

Lemma pack_chunks_ok (chunks : list chunk) :
  Forall batch_ok (pack_chunks chunks).
Proof.
  unfold pack_chunks. apply pack_finish_ok, pack_fold_inv. simpl.
  repeat split; [unfold MAX_CHARS; lia|constructor].
Qed.

(** X12. The dry run counts every character of every readable file once:
    the total over the batches is the total size of the files that can be
    read. *)
Theorem dry_run_counts_every_character (files : list file) :
  dry_run_total (pack_batches files) = files_size files.
Proof.
  rewrite <- batch_size_concat, pack_batches_chunks.
  rewrite (batch_size_perm _ _ (pack_chunks_perm (all_chunks files))).
  apply batch_size_all_chunks.
Qed.

Lemma enumerate_from_snd {A : Type} (l : list A) :
  forall i, map snd (enumerate_from i l) = l.
Proof.
  induction l as [|x l IH]; intros i; simpl; [reflexivity|].
  rewrite IH. reflexivity.
Qed.

Lemma filter_map_snd {A B : Type} (f : B -> bool) (l : list (A * B)) :
  map snd (filter (fun ab => f (snd ab)) l) = filter f (map snd l).
Proof.
  induction l as [|[a b] l IH]; simpl; [reflexivity|].
  destruct (f b); simpl; rewrite IH; reflexivity.
Qed.

Lemma chunk_le_batch_size (b : batch) (c : chunk) :
  In c b -> len (content c) <= batch_size b.
Proof.
  induction b as [|c0 b IH]; simpl; intros H; [contradiction|].
  pose proof (batch_size_nonneg b). pose proof (len_nonneg (content c0)).
  destruct H as [->|H]; [lia|]. specialize (IH H). lia.
Qed.

Lemma oversized_batches_count (batches : list batch) :
  Forall batch_ok batches ->
  List.length (filter (fun b => batch_size b >? MAX_CHARS) batches)
  = List.length (filter oversized_chunk (concat batches)).
Proof.
  induction 1 as [|b batches Hb _ IH]; simpl; [reflexivity|].
  rewrite filter_app, length_app.
  destruct Hb as [Hle|(c & -> & Hc)].
  - destruct (batch_size b >? MAX_CHARS) eqn:E; zbool; [lia|].
    rewrite (filter_none oversized_chunk b); [simpl; exact IH|].
    apply Forall_forall. intros c Hin. unfold oversized_chunk.
    pose proof (chunk_le_batch_size b c Hin).
    destruct (len (content c) >? MAX_CHARS) eqn:E'; zbool; [lia|reflexivity].
  - unfold oversized_chunk at 1. simpl.
    destruct (len (content c) + 0 >? MAX_CHARS) eqn:E; zbool; [|lia].
    destruct (len (content c) >? MAX_CHARS) eqn:E'; zbool; [|lia].
    simpl. rewrite IH. reflexivity.
Qed.

(** X13. The batches the dry run flags as oversized are those of one
    oversized chunk alone, and there is one of them for each oversized
    chunk. *)
Theorem dry_run_flags_oversized_chunks (chunks : list chunk) :
  Forall (fun ib => exists c, snd ib = [c] /\ MAX_CHARS < len (content c))
    (dry_run_oversized (pack_chunks chunks))
  /\ List.length (dry_run_oversized (pack_chunks chunks))
     = List.length (filter oversized_chunk chunks).
Proof.
  pose proof (pack_chunks_ok chunks) as Hok. split.
  - unfold dry_run_oversized. apply Forall_forall. intros [i b] Hin.
    apply filter_In in Hin as [Hin Hbig]. simpl in Hbig. zbool.
    assert (Hb : In b (pack_chunks chunks)).
    { rewrite <- (enumerate_from_snd (pack_chunks chunks) 0).
      apply in_map_iff. exists (i, b). split; [reflexivity|exact Hin]. }
    rewrite Forall_forall in Hok. destruct (Hok b Hb) as [Hle|H]; [lia|].
    exact H.
  - rewrite <- (length_map snd). unfold dry_run_oversized.
    rewrite (filter_map_snd (fun b => batch_size b >? MAX_CHARS)).
    unfold enumerate. rewrite enumerate_from_snd.
    rewrite (oversized_batches_count _ Hok).
    pose proof (pack_fold_order chunks ([], [], 0)) as [_ H];
      [split; constructor|].
    unfold pack_chunks. rewrite pack_finish_packed, H. reflexivity.
Qed.

(** ** Trimming *)

Lemma lstrip_shape (s : str) :
  lstrip s = [] \/ exists c t, lstrip s = c :: t /\ is_space c = false.
Proof.
  induction s as [|c s IH]; simpl; [left; reflexivity|].
  destruct (is_space c) eqn:E; [exact IH|].
  right. exists c, s. split; [reflexivity|exact E].
Qed.

Lemma lstrip_fixed (c : char) (t : str) :
  is_space c = false -> lstrip (c :: t) = c :: t.
Proof. intros E. simpl. rewrite E. reflexivity. Qed.

Lemma lstrip_idempotent (s : str) : lstrip (lstrip s) = lstrip s.
Proof.
  destruct (lstrip_shape s) as [->|(c & t & -> & E)]; [reflexivity|].
  apply lstrip_fixed. exact E.
Qed.

Lemma lstrip_snoc (l : str) (c : char) :
  is_space c = false -> lstrip (l ++ [c]) = lstrip l ++ [c].
Proof.
  intros E. induction l as [|x l IH]; simpl.
  - rewrite E. reflexivity.
  - destruct (is_space x); [exact IH|reflexivity].
Qed.

Lemma rstrip_cons (c : char) (t : str) :
  is_space c = false -> rstrip (c :: t) = c :: rstrip t.
Proof.
  intros E. unfold rstrip. simpl. rewrite lstrip_snoc by exact E.
  rewrite rev_app_distr. reflexivity.
Qed.

Lemma rstrip_idempotent (s : str) : rstrip (rstrip s) = rstrip s.
Proof.
  unfold rstrip. rewrite rev_involutive, lstrip_idempotent. reflexivity.
Qed.

Lemma strip_idempotent (s : str) : strip (strip s) = strip s.
Proof.
  unfold strip. destruct (lstrip_shape s) as [->|(c & t & -> & E)];
    [reflexivity|].
  rewrite (rstrip_cons c t E), (lstrip_fixed c _ E), (rstrip_cons c _ E).
  rewrite rstrip_idempotent. reflexivity.
Qed.

Lemma find_step_strip (src : list str) (offset : Z) (st : finder_state)
  (ml : str) :
  find_step src offset st (strip ml) = find_step src offset st ml.
Proof.
  destruct st as [[results seen] idx]. unfold find_step.
  rewrite strip_idempotent. reflexivity.
Qed.

(** X14. Only the trimmed form of a response line counts: trimming the
    response lines beforehand changes nothing in what [find_lines]
    returns. *)
Theorem find_lines_ignores_outer_whitespace (content : str) (offset : Z)
  (matched : list str) :
  find_lines content offset (map strip matched)
  = find_lines content offset matched.
Proof.
  unfold find_lines. generalize (([], [], 0%nat) : finder_state).
  induction matched as [|ml matched IH]; intros st; cbn [map fold_left];
    [reflexivity|].
  rewrite find_step_strip. apply IH.
Qed.

(** ** Lines, chunks and line numbers *)

(** A line without its line end. *)
Fixpoint chomp (l : str) : str :=
  match l with
  | [] => []
  | c :: r => if is_linebreak c then [] else c :: chomp r
  end.

Lemma splitlines_nil_inv (s : str) : splitlines true s = [] -> s = [].
Proof.
  intros H. rewrite <- (splitlines_keepends_concat s), H. reflexivity.
Qed.

(** Without the line ends, the lines are the same lines, each cut before
    its line end. *)
Lemma splitlines_chomp_bounded (n : nat) :
  forall s : str, (List.length s <= n)%nat ->
    splitlines false s = map chomp (splitlines true s).
Proof.
  induction n as [|n IH]; intros [|c rest] Hn; try reflexivity;
    try (simpl in Hn; lia).
  simpl in Hn. rewrite !splitlines_cons.
  destruct (is_linebreak c) eqn:Hlb.
  - destruct rest as [|c' rest'].
    + simpl. rewrite Hlb. reflexivity.
    + simpl in Hn. destruct ((c =? 13) && (c' =? 10))%N; cbn [map chomp];
        rewrite Hlb; f_equal; apply IH; simpl; lia.
  - rewrite (IH rest) by lia.
    destruct (splitlines true rest) as [|l ls]; cbn [map chomp];
      rewrite Hlb; reflexivity.
Qed.

Lemma splitlines_chomp (s : str) :
  splitlines false s = map chomp (splitlines true s).
Proof. apply (splitlines_chomp_bounded (List.length s)). lia. Qed.

(** The first line of a text, and the text after it. *)
Lemma splitlines_tail_bounded (n : nat) :
  forall (s l : str) (ls : list str),
    (List.length s <= n)%nat ->
    splitlines true s = l :: ls ->
    exists s', s = l ++ s' /\ splitlines true s' = ls.
Proof.
  induction n as [|n IH]; intros [|c rest] l ls Hn H;
    try discriminate H; try (simpl in Hn; lia).
  simpl in Hn. rewrite splitlines_cons in H.
  destruct (is_linebreak c) eqn:Hlb.
  - destruct rest as [|c' rest'].
    + injection H as <- <-. exists []. split; reflexivity.
    + destruct ((c =? 13) && (c' =? 10))%N; injection H as <- <-.
      * exists rest'. split; reflexivity.
      * exists (c' :: rest'). split; reflexivity.
  - destruct (splitlines true rest) as [|l' ls'] eqn:Er.
    + injection H as <- <-. apply splitlines_nil_inv in Er. subst rest.
      exists []. split; reflexivity.
    + injection H as <- <-.
      destruct (IH rest l' ls' ltac:(lia) Er) as (s' & -> & Hs').
      exists s'. split; [reflexivity|exact Hs'].
Qed.

Lemma splitlines_tail (s l : str) (ls : list str) :
  splitlines true s = l :: ls ->
  exists s', s = l ++ s' /\ splitlines true s' = ls.
Proof. apply (splitlines_tail_bounded (List.length s)). lia. Qed.

(** The first line of a text stays the first line when the text after it
    is cut short. *)
Lemma first_line_stable_bounded (n : nat) :
  forall (s l : str) (ls : list str) (s2 s3 : str),
    (List.length s <= n)%nat ->
    splitlines true s = l :: ls ->
    s = l ++ s2 ++ s3 ->
    splitlines true (l ++ s2) = l :: splitlines true s2.
Proof.
  induction n as [|n IH]; intros [|c rest] l ls s2 s3 Hn H Hs;
    try discriminate H; try (simpl in Hn; lia).
  simpl in Hn. rewrite splitlines_cons in H.
  destruct (is_linebreak c) eqn:Hlb.
  - destruct rest as [|c' rest'].
    + injection H as <- <-. injection Hs as Hs.
      symmetry in Hs. apply app_eq_nil in Hs as [-> _].
      cbn [app]. rewrite splitlines_cons, Hlb. reflexivity.
    + destruct ((c =? 13) && (c' =? 10))%N eqn:Hc; injection H as <- <-.
      * cbn [app]. rewrite splitlines_cons, Hlb, Hc. reflexivity.
      * cbn [app] in Hs |- *. injection Hs as Hs.
        rewrite splitlines_cons, Hlb.
        destruct s2 as [|x s2']; [reflexivity|].
        injection Hs as -> _. rewrite Hc. reflexivity.
  - destruct (splitlines true rest) as [|l' ls'] eqn:Er.
    + injection H as <- <-. injection Hs as Hs.
      apply splitlines_nil_inv in Er. subst rest.
      symmetry in Hs. apply app_eq_nil in Hs as [-> _].
      cbn [app]. rewrite splitlines_cons, Hlb. reflexivity.
    + injection H as <- <-. cbn [app] in Hs |- *. injection Hs as Hs.
      rewrite splitlines_cons, Hlb.
      rewrite (IH rest l' ls' s2 s3 ltac:(lia) Er Hs). reflexivity.
Qed.

Lemma first_line_stable (s l : str) (ls : list str) (s2 s3 : str) :
  splitlines true s = l :: ls ->
  s = l ++ s2 ++ s3 ->
  splitlines true (l ++ s2) = l :: splitlines true s2.
Proof. apply (first_line_stable_bounded (List.length s)). lia. Qed.

(** What follows some of the lines of a text splits into the lines that
    follow. *)
Lemma splitlines_suffix (pre : list str) :
  forall (s : str) (tl : list str),
    splitlines true s = pre ++ tl -> splitlines true (concat tl) = tl.
Proof.
  induction pre as [|l pre IH]; intros s tl H.
  - simpl in H. rewrite <- H, splitlines_keepends_concat. reflexivity.
  - destruct (splitlines_tail s l (pre ++ tl) H) as (s' & _ & Hs').
    apply (IH s' tl Hs').
Qed.

Lemma splitlines_prefix (grp : list str) :
  forall post : list str,
    splitlines true (concat (grp ++ post)) = grp ++ post ->
    splitlines true (concat grp) = grp.
Proof.
  induction grp as [|l grp IH]; intros post H; [reflexivity|].
  cbn [app concat] in H |- *.
  destruct (splitlines_tail _ l (grp ++ post) H) as (s' & Hs & Hs').
  apply app_inv_head in Hs. subst s'.
  rewrite (first_line_stable _ l (grp ++ post) (concat grp) (concat post) H)
    by (rewrite concat_app; reflexivity).
  rewrite (IH post Hs'). reflexivity.
Qed.

(** A run of lines of a text, put together, splits into these lines. *)
Lemma splitlines_segment (text : str) (pre grp post : list str) :
  splitlines true text = pre ++ grp ++ post ->
  splitlines true (concat grp) = grp.
Proof.
  intros H. apply (splitlines_prefix grp post).
  apply (splitlines_suffix pre text). exact H.
Qed.

Section ChunkPlacement.

Variable rel : str.
(** The lines of the file being split. *)
Variable L : list str.

(** The chunk holds a run of whole lines, and its offset is the number of
    lines before them. *)
Definition chunk_placed (c : chunk) : Prop :=
  exists pre grp post,
    L = pre ++ grp ++ post
    /\ content c = concat grp
    /\ line_offset c = len pre.

(** The label tells the first line of the chunk, or is the path alone for
    a chunk at the start. *)
Definition label_tells_offset (c : chunk) : Prop :=
  label c = ranged_label rel (line_offset c)
  \/ (label c = rel /\ line_offset c = 0).

(** [done] are the lines taken so far: those of the closed chunks, then
    those of the open one, which starts at line [start]. *)
Definition placer_inv (done rest : list str) (st : chunker_state) : Prop :=
  let '(chunks, cur, cur_len, start) := st in
  L = done ++ rest
  /\ (exists pre, done = pre ++ cur /\ start = len pre)
  /\ Forall (fun c => chunk_placed c /\ label_tells_offset c) chunks.

Lemma chunk_step_placed (done rest : list str) (line : str)
  (st : chunker_state) :
  placer_inv done (line :: rest) st ->
  placer_inv (done ++ [line]) rest (chunk_step rel st (len done, line)).
Proof.
  destruct st as [[[chunks cur] cur_len] start].
  intros (HL & (pre & Hdone & Hstart) & Hchunks). unfold chunk_step.
  destruct ((cur_len + len line >? MAX_CHARS) && truthy cur).
  - split; [rewrite <- app_assoc; exact HL|]. split.
    + exists done. split; reflexivity.
    + apply Forall_app. split; [exact Hchunks|].
      constructor; [|constructor]. split.
      * exists pre, cur, (line :: rest). simpl. split; [|split; auto].
        rewrite HL, Hdone, <- app_assoc. reflexivity.
      * left. reflexivity.
  - split; [rewrite <- app_assoc; exact HL|]. split; [|exact Hchunks].
    exists pre. split; [|exact Hstart].
    rewrite Hdone, <- app_assoc. reflexivity.
Qed.

Lemma chunk_fold_placed (rest : list str) :
  forall (done : list str) (st : chunker_state),
    placer_inv done rest st ->
    placer_inv (done ++ rest) []
      (fold_left (chunk_step rel) (enumerate_from (len done) rest) st).
Proof.
  induction rest as [|line rest IH]; intros done st H.
  - rewrite app_nil_r. exact H.
  - cbn [enumerate_from fold_left].
    replace (done ++ line :: rest) with ((done ++ [line]) ++ rest)
      by (rewrite <- app_assoc; reflexivity).
    replace (len done + 1) with (len (done ++ [line]))
      by (rewrite len_app; reflexivity).
    apply IH. apply chunk_step_placed. exact H.
Qed.

Lemma chunk_finish_placed (done : list str) (st : chunker_state) :
  placer_inv done [] st ->
  Forall (fun c => chunk_placed c /\ label_tells_offset c)
    (chunk_finish rel st).
Proof.
  destruct st as [[[chunks cur] cur_len] start].
  intros (HL & (pre & Hdone & Hstart) & Hchunks). unfold chunk_finish.
  destruct (truthy cur); [|exact Hchunks].
  apply Forall_app. split; [exact Hchunks|]. constructor; [|constructor].
  split.
  - exists pre, cur, []. simpl. split; [|split; auto].
    rewrite HL, Hdone, !app_nil_r. reflexivity.
  - unfold label_tells_offset. simpl.
    destruct (start >? 0) eqn:E; zbool; [left; reflexivity|].
    right. split; [reflexivity|]. pose proof (len_nonneg pre). lia.
Qed.

End ChunkPlacement.

Lemma chunk_file_placed (rel text : str) :
  Forall (fun c => chunk_placed (splitlines true text) c
                   /\ label_tells_offset rel c)
    (chunk_file rel text).
Proof.
  destruct (Z_le_gt_dec (len text) MAX_CHARS) as [Hs|Hl].
  - rewrite chunk_file_small by exact Hs. constructor; [|constructor]. split.
    + exists [], (splitlines true text), []. simpl.
      rewrite app_nil_r, splitlines_keepends_concat. auto.
    + right. split; reflexivity.
  - rewrite chunk_file_large by lia.
    apply (chunk_finish_placed rel (splitlines true text)
             (splitlines true text)).
    apply (chunk_fold_placed rel (splitlines true text)
             (splitlines true text) [] ([], [], 0, 0)).
    split; [reflexivity|]. split; [|constructor].
    exists []. split; reflexivity.
Qed.

(** X15. Chunks are cut at line ends and carry the right offset: every
    chunk holds a run of whole lines of the file, its offset is the number
    of lines before that run, and its label is the path with the number of
    its first line, or the path alone for a chunk at the start. *)
Theorem chunk_file_offsets (rel text : str) :
  Forall (fun c =>
            (exists pre grp post,
                splitlines true text = pre ++ grp ++ post
                /\ content c = concat grp
                /\ line_offset c = len pre)
            /\ (label c = ranged_label rel (line_offset c)
                \/ (label c = rel /\ line_offset c = 0)))
    (chunk_file rel text).
Proof.
  eapply Forall_impl; [|apply chunk_file_placed].
  intros c [Hp Hl]. split; [exact Hp|exact Hl].
Qed.

(** A record for a line of a placed chunk names that line of the file. *)
Lemma placed_line_number (text : str) (c : chunk) (r : record) :
  chunk_placed (splitlines true text) c ->
  from_source (splitlines false (content c)) (line_offset c) r ->
  1 <= fst r
  /\ nth_error (splitlines false text) (Z.to_nat (fst r - 1)) = Some (snd r).
Proof.
  intros (pre & grp & post & HL & Hcontent & Hoff) (i & Hi & Hg).
  rewrite Hoff in Hg. unfold len in Hg. split; [lia|].
  replace (Z.to_nat (fst r - 1)) with (List.length pre + i)%nat by lia.
  rewrite splitlines_chomp, HL, !map_app.
  rewrite nth_error_app2 by (rewrite length_map; lia).
  rewrite length_map.
  replace (List.length pre + i - List.length pre)%nat with i by lia.
  rewrite Hcontent, splitlines_chomp in Hi.
  rewrite (splitlines_segment text pre grp post HL) in Hi.
  rewrite nth_error_app1; [exact Hi|].
  apply nth_error_Some. congruence.
Qed.

(** X16. The line numbers reported are the true ones: a record that
    [find_lines] returns for a chunk of a file carries the 1-based number
    its line has in the whole file, with the text of that line. *)
Theorem reported_line_numbers_are_true (rel text : str)
  (matched : list str) (c : chunk) (r : record) :
  In c (chunk_file rel text) ->
  In r (find_lines (content c) (line_offset c) matched) ->
  1 <= fst r
  /\ nth_error (splitlines false text) (Z.to_nat (fst r - 1)) = Some (snd r).
Proof.
  intros Hc Hr. apply (placed_line_number text c r).
  - pose proof (chunk_file_placed rel text) as Hp.
    rewrite Forall_forall in Hp. apply (Hp c Hc).
  - pose proof (find_fold_from_source (splitlines false (content c))
                  (line_offset c) matched ([], [], 0%nat) (Forall_nil _))
      as Hf.
    rewrite Forall_forall in Hf. apply (Hf r Hr).
Qed.

(** X16 on a file of three lines, for the response that names the second. *)
Lemma reported_line_numbers_are_true_witness :
  let text := join [10%N] [of_string "a"; of_string "b"; of_string "c"] in
  1 <= 2
  /\ nth_error (splitlines false text) (Z.to_nat (2 - 1))
     = Some (of_string "b").
Proof.
  cbv zeta.
  apply (reported_line_numbers_are_true (of_string "f.txt")
           (join [10%N] [of_string "a"; of_string "b"; of_string "c"])
           [of_string "b"]
           (mkChunk (of_string "f.txt")
              (join [10%N] [of_string "a"; of_string "b"; of_string "c"]) 0)
           (2, of_string "b")).
  - left. reflexivity.
  - left. reflexivity.
Defined.

(** ** From the files to the matches of a batch *)

Lemma rel_from_label_cut (rel tail : str) :
  rel_from_label (rel ++ 91%N :: tail) = rel_from_label rel.
Proof.
  induction rel as [|c rel IH]; simpl; [reflexivity|].
  destruct (c =? 91)%N; [reflexivity|]. rewrite IH. reflexivity.
Qed.

(** A record listed in the result of a batch comes from [find_lines] on a
    chunk of the batch. *)
Lemma match_results_origin (output : option str) (b : batch) (rel : str)
  (ms : list record) (r : record) :
  In (rel, ms) (match_results output b) ->
  In r ms ->
  exists out c,
    output = Some out /\ In c b /\ rel_from_label (label c) = rel
    /\ In r (find_lines (content c) (line_offset c) (splitlines false out)).
Proof.
  destruct output as [out|]; [|intros []].
  intros Hin Hr.
  assert (Hl : In r (lookup (match_results (Some out) b) rel)).
  { rewrite (lookup_entry _ _ _ (match_results_shape_aux out b) Hin).
    exact Hr. }
  clear Hin Hr. unfold match_results in Hl.
  destruct (negb (truthy out) || negb (truthy (strip out)));
    [destruct Hl|].
  rewrite lookup_sorted_values in Hl.
  apply (proj1 (proj2 (proj2 (sorted_set_spec _)) r)) in Hl.
  apply (proj1 (match_fold_lookup _ _ _ _ _)) in Hl.
  destruct Hl as [[]|(c & Hc & -> & Hf)].
  exists out, c. auto.
Qed.

(** A chunk of a batch made from the files is a chunk of one of them. *)
Lemma pack_batches_chunk_origin (files : list file) (b : batch) (c : chunk) :
  In b (pack_batches files) -> In c b ->
  exists rel text, In (rel, Some text) files /\ In c (chunk_file rel text).
Proof.
  intros Hb Hc.
  assert (Hin : In c (all_chunks files)).
  { apply (Permutation_in c (pack_chunks_perm (all_chunks files))).
    rewrite <- pack_batches_chunks. apply in_concat. exists b.
    split; assumption. }
  unfold all_chunks in Hin. apply in_flat_map in Hin as ([rel [text|]] & Hf & Hcf);
    [|destruct Hcf].
  exists rel, text. split; [exact Hf|exact Hcf].
Qed.

(** X17. From the files to the matches: whatever the service answers, a
    match listed in the result of a batch of the run names a line of a
    file that was read, with its true 1-based number and its text as it
    stands, under that file's path cut before its first '['. *)
Theorem matches_are_true_lines_of_files (files : list file) (b : batch)
  (output : option str) (path : str) (ms : list record) (r : record) :
  In b (pack_batches files) ->
  In (path, ms) (match_results output b) ->
  In r ms ->
  exists rel text,
    In (rel, Some text) files
    /\ path = rel_from_label rel
    /\ 1 <= fst r
    /\ nth_error (splitlines false text) (Z.to_nat (fst r - 1))
       = Some (snd r).
Proof.
  intros Hb Hin Hr.
  destruct (match_results_origin output b path ms r Hin Hr)
    as (out & c & _ & Hc & Hpath & Hf).
  destruct (pack_batches_chunk_origin files b c Hb Hc)
    as (rel & text & Hfile & Hcf).
  exists rel, text. split; [exact Hfile|].
  pose proof (chunk_file_placed rel text) as Hp.
  rewrite Forall_forall in Hp. destruct (Hp c Hcf) as [Hplaced Hlabel].
  split.
  - rewrite <- Hpath.
    destruct Hlabel as [E|[E _]]; rewrite E; [|reflexivity].
    unfold ranged_label. apply rel_from_label_cut.
  - apply (placed_line_number text c r Hplaced).
    pose proof (find_fold_from_source (splitlines false (content c))
                  (line_offset c) (splitlines false out) ([], [], 0%nat)
                  (Forall_nil _)) as H.
    rewrite Forall_forall in H. apply (H r Hf).
Qed.

(** X17 on one file of three lines and the answer that names the second. *)
Lemma matches_are_true_lines_of_files_witness :
  let text := join [10%N] [of_string "a"; of_string "b"; of_string "c"] in
  exists rel text',
    In (rel, Some text') [(of_string "d/f.txt", Some text)]
    /\ of_string "d/f.txt" = rel_from_label rel
    /\ 1 <= 2
    /\ nth_error (splitlines false text') (Z.to_nat (2 - 1))
       = Some (of_string "b").
Proof.
  cbv zeta.
  apply (matches_are_true_lines_of_files
           [(of_string "d/f.txt",
             Some (join [10%N] [of_string "a"; of_string "b"; of_string "c"]))]
           [mkChunk (of_string "d/f.txt")
              (join [10%N] [of_string "a"; of_string "b"; of_string "c"]) 0]
           (Some (of_string "b")) (of_string "d/f.txt")
           [(2, of_string "b")] (2, of_string "b")).
  - left. reflexivity.
  - left. reflexivity.
  - left. reflexivity.
Defined.

(** ** Chunker: files of one line, and at least one chunk *)

Lemma splitlines_single (s : str) :
  Forall (fun c => is_linebreak c = false) s -> s <> [] ->
  splitlines true s = [s].
Proof.
  induction 1 as [|c rest Hc Hrest IH]; intros Hne; [congruence|].
  rewrite splitlines_cons, Hc. destruct rest as [|c' rest'].
  - reflexivity.
  - rewrite IH by discriminate. reflexivity.
Qed.

Lemma chunk_step_open (rel : str) (st : chunker_state) (il : Z * str) :
  snd (fst (fst (chunk_step rel st il))) <> [].
Proof.
  destruct st as [[[chunks cur] cur_len] start], il as [i line].
  unfold chunk_step.
  destruct ((cur_len + len line >? MAX_CHARS) && truthy cur); simpl;
    [discriminate|].
  destruct cur; discriminate.
Qed.

Lemma chunk_fold_open (rel : str) (lines : list (Z * str)) :
  forall st : chunker_state,
    lines <> [] ->
    snd (fst (fst (fold_left (chunk_step rel) lines st))) <> [].
Proof.
  induction lines as [|il lines IH]; intros st Hne; [congruence|].
  cbn [fold_left]. destruct lines as [|il' lines].
  - apply chunk_step_open.
  - apply IH. discriminate.
Qed.

(** X18. Every file gives at least one chunk; and a text without any line
    boundary is one chunk with offset 0 and the path as its label, however
    long it is. *)
Theorem one_line_file_is_one_chunk (rel text : str) :
  chunk_file rel text <> []
  /\ (Forall (fun c => is_linebreak c = false) text ->
      chunk_file rel text = [mkChunk rel text 0]).
Proof.
  destruct (Z_le_gt_dec (len text) MAX_CHARS) as [Hs|Hl].
  - rewrite chunk_file_small by exact Hs. split; [discriminate|reflexivity].
  - assert (Hne : text <> []).
    { intros ->. unfold len, MAX_CHARS in Hl. simpl in Hl. lia. }
    rewrite chunk_file_large by lia. split.
    + assert (Hl' : enumerate (splitlines true text) <> []).
      { destruct (splitlines true text) eqn:E; [|discriminate].
        apply splitlines_nil_inv in E. congruence. }
      pose proof (chunk_fold_open rel _ ([], [], 0, 0) Hl') as Ho.
      destruct (fold_left (chunk_step rel) (enumerate (splitlines true text))
                  ([], [], 0, 0)) as [[[chunks cur] cur_len] start].
      simpl in Ho. unfold chunk_finish. destruct cur; [congruence|].
      simpl. destruct chunks; discriminate.
    + intros Hnb. rewrite (splitlines_single text Hnb Hne).
      unfold enumerate. cbn [enumerate_from fold_left]. unfold chunk_step.
      cbn [truthy]. rewrite andb_false_r. cbn [app chunk_finish truthy concat].
      rewrite app_nil_r. reflexivity.
Qed.

(** X18 on the line of 20001 characters. *)
Lemma one_line_file_is_one_chunk_witness :
  chunk_file (of_string "big.txt") long_line
  = [mkChunk (of_string "big.txt") long_line 0].
Proof.
  apply (proj2 (one_line_file_is_one_chunk (of_string "big.txt") long_line)).
  apply Forall_forall. intros c Hc. apply repeat_spec in Hc. subst c.
  reflexivity.
Defined.

(** ** What the plain format prints for one batch *)

(** Before in the output: a smaller path, or the same path and no larger
    line number. *)
Definition entry_le (e1 e2 : str * record) : Prop :=
  str_leb (fst e1) (fst e2) = true
  /\ (fst e1 = fst e2 -> fst (snd e1) <= fst (snd e2)).

(** The matches of a result, path by path. *)
Definition all_matches (results : results_map) : list (str * record) :=
  flat_map (fun kv => map (fun m => (fst kv, m)) (snd kv)) results.

Lemma str_compare_refl (a : str) : str_compare a a = Eq.
Proof.
  induction a as [|x a IH]; simpl; [reflexivity|].
  rewrite N.compare_refl. exact IH.
Qed.

Lemma str_leb_total (a b : str) : str_leb a b = false -> str_leb b a = true.
Proof.
  unfold str_leb. rewrite (str_compare_antisym a b).
  destruct (str_compare a b); simpl; congruence.
Qed.

Lemma Sorted_app_between {A : Type} (R : A -> A -> Prop) (l1 l2 : list A) :
  Sorted R l1 -> Sorted R l2 ->
  (forall x, In x l1 -> HdRel R x l2) ->
  Sorted R (l1 ++ l2).
Proof.
  intros H1 H2 Hb. induction H1 as [|x l1 Hs IH Hh]; [exact H2|].
  simpl. constructor.
  - apply IH. intros y Hy. apply Hb. right. exact Hy.
  - destruct l1 as [|y l1]; simpl.
    + apply Hb. left. reflexivity.
    + inversion Hh; subst. constructor. assumption.
Qed.

Lemma lookup_key_nonempty (results : results_map) (k : str) :
  Forall (fun kv => snd kv <> []) results ->
  In k (map fst results) -> lookup results k <> [].
Proof.
  induction 1 as [|[k0 v] results Hv _ IH]; simpl; intros Hin;
    [contradiction|].
  destruct (str_eqb k0 k) eqn:E; [exact Hv|].
  destruct Hin as [->|Hin]; [|apply IH; exact Hin].
  rewrite str_eqb_refl in E. discriminate E.
Qed.

Section PipeOrder.

Variable results : results_map.
Hypothesis values_sorted :
  Forall (fun kv => Sorted (fun x y => fst x <= fst y) (snd kv)) results.
Hypothesis values_nonempty : Forall (fun kv => snd kv <> []) results.

(** The entries printed for one path. *)
Definition group (rel : str) : list (str * record) :=
  map (fun m => (rel, m)) (lookup results rel).

Lemma group_sorted (rel : str) : Sorted entry_le (group rel).
Proof.
  assert (Hs : Sorted (fun x y => fst x <= fst y) (lookup results rel)).
  { destruct (lookup results rel) as [|m ms] eqn:E; [constructor|].
    assert (Hin : In (rel, lookup results rel) results)
      by (apply lookup_is_entry; rewrite E; discriminate).
    rewrite Forall_forall in values_sorted.
    specialize (values_sorted _ Hin). simpl in values_sorted.
    rewrite E in values_sorted. exact values_sorted. }
  unfold group. induction Hs as [|m ms Hs IH Hh]; simpl; constructor.
  - exact IH.
  - destruct Hh; constructor. split; simpl.
    + unfold str_leb. rewrite str_compare_refl. reflexivity.
    + intros _. assumption.
Qed.

Lemma group_head (k0 : str) (keys : list str) (x : str * record) :
  (forall k, In k keys -> In k (map fst results)) ->
  HdRel (fun a b => str_leb a b = true) k0 keys ->
  ~ In k0 keys ->
  fst x = k0 ->
  HdRel entry_le x (flat_map group keys).
Proof.
  intros Hkeys Hh Hnin Hx. destruct Hh as [|k keys Hle]; [constructor|].
  simpl. pose proof (lookup_key_nonempty results k values_nonempty
                       (Hkeys k (or_introl eq_refl))) as Hne.
  unfold group at 1. destruct (lookup results k) as [|m ms]; [congruence|].
  simpl. constructor. split; simpl.
  - rewrite Hx. exact Hle.
  - intros E. exfalso. apply Hnin. left. congruence.
Qed.

Lemma groups_sorted (keys : list str) :
  NoDup keys ->
  (forall k, In k keys -> In k (map fst results)) ->
  Sorted (fun a b => str_leb a b = true) keys ->
  Sorted entry_le (flat_map group keys).
Proof.
  intros Hnd Hkeys Hs. induction Hs as [|k keys Hs IH Hh]; [constructor|].
  inversion Hnd as [|k' l Hk Hnd']; subst. simpl.
  apply Sorted_app_between.
  - apply group_sorted.
  - apply IH; [exact Hnd'|]. intros k1 H1. apply Hkeys. right. exact H1.
  - intros x Hx. apply (group_head k keys x); try assumption.
    + intros k1 H1. apply Hkeys. right. exact H1.
    + unfold group in Hx. apply in_map_iff in Hx as (m & <- & _).
      reflexivity.
Qed.

End PipeOrder.

Lemma flat_map_entries (results : results_map) :
  NoDup (map fst results) ->
  flat_map (group results) (map fst results) = all_matches results.
Proof.
  intros Hnd. unfold all_matches.
  assert (H : forall l, incl l results ->
            flat_map (group results) (map fst l)
            = flat_map (fun kv => map (fun m => (fst kv, m)) (snd kv)) l).
  { induction l as [|[k v] l IH]; intros Hl; simpl; [reflexivity|].
    rewrite IH by (intros x Hx; apply Hl; right; exact Hx).
    unfold group at 1.
    rewrite (lookup_entry results k v Hnd (Hl _ (or_introl eq_refl))).
    reflexivity. }
  apply H. apply incl_refl.
Qed.

Lemma match_results_nonempty_aux (output : option str) (b : batch) :
  Forall (fun kv => snd kv <> []) (match_results output b).
Proof.
  unfold match_results. destruct output as [output|]; [|constructor].
  destruct (negb (truthy output) || negb (truthy (strip output)));
    [constructor|].
  destruct (match_fold_inv (splitlines false output) b [])
    as [_ Hv]; [split; constructor|].
  apply Forall_map. eapply Forall_impl; [|exact Hv].
  intros kv Hne. simpl. rewrite sorted_set_nil_iff. exact Hne.
Qed.

(** X19. In the plain format the result of a batch is printed with one line
    for each match and nothing else, the paths in ascending order and,
    under one path, the line numbers in ascending order. *)
Theorem fmt_pipe_prints_matches_in_order (output : option str) (b : batch) :
  let results := match_results output b in
  exists es,
    fmt_pipe results = map pipe_line es
    /\ Permutation es (all_matches results)
    /\ Sorted entry_le es.
Proof.
  cbv zeta. exists (entries (match_results output b)).
  split; [reflexivity|].
  assert (Hnd : NoDup (map fst (match_results output b))).
  { destruct output as [out|]; [apply match_results_shape_aux|constructor]. }
  change (entries (match_results output b))
    with (flat_map (group (match_results output b))
            (sorted str_leb (map fst (match_results output b)))).
  split.
  - rewrite <- (flat_map_entries _ Hnd).
    apply Permutation_flat_map. apply sorted_perm.
  - apply groups_sorted.
    + eapply Forall_impl; [|apply match_results_sorted].
      intros kv [_ H]. exact H.
    + apply match_results_nonempty_aux.
    + eapply Permutation_NoDup; [|exact Hnd]. symmetry. apply sorted_perm.
    + intros k Hk. eapply Permutation_in; [apply sorted_perm|exact Hk].
    + apply sorted_Sorted. exact str_leb_total.
Qed.

(** ** Reconciler: a faithful echo *)

(** The lines that are not blank, each with its global number. *)
Fixpoint numbered (offset : Z) (i : nat) (lines : list str) : list record :=
  match lines with
  | [] => []
  | l :: rest =>
      (if truthy (strip l) then [(offset + Z.of_nat i + 1, l)] else [])
      ++ numbered offset (S i) rest
  end.

Section Echo.

Variable offset : Z.

(** The response has echoed the lines [pre] of the chunk: the numbers
    recorded belong to them, and no line that is not blank lies between
    the cursor and their end. *)
Definition echo_inv (src pre : list str) (st : finder_state) : Prop :=
  let '(results, seen, idx) := st in
  (idx <= List.length pre)%nat
  /\ (forall j, (idx <= j < List.length pre)%nat -> strip (nth j src []) = [])
  /\ (forall j, (List.length pre <= j)%nat ->
        ~ In (offset + Z.of_nat j + 1) seen).

Lemma echo_fold (rest : list str) :
  forall (pre : list str) (st : finder_state),
    echo_inv (pre ++ rest) pre st ->
    fst (fst (fold_left (find_step (pre ++ rest) offset) rest st))
    = fst (fst st) ++ numbered offset (List.length pre) rest.
Proof.
  induction rest as [|line rest IH]; intros pre st Hinv.
  - simpl. rewrite app_nil_r. reflexivity.
  - destruct st as [[results seen] idx].
    destruct Hinv as (Hidx & Hblank & Hunseen).
    assert (Hnth : nth (List.length pre) (pre ++ line :: rest) [] = line).
    { rewrite app_nth2 by lia. rewrite Nat.sub_diag. reflexivity. }
    assert (Hlen : (List.length pre < List.length (pre ++ line :: rest))%nat).
    { rewrite length_app. simpl. lia. }
    assert (Hsrc : pre ++ line :: rest = (pre ++ [line]) ++ rest)
      by (rewrite <- app_assoc; reflexivity).
    assert (Hlen' : List.length (pre ++ [line]) = S (List.length pre))
      by (rewrite length_app; simpl; lia).
    cbn [fold_left numbered].
    destruct (find_step_cases (pre ++ line :: rest) offset results seen idx
                line)
      as [[Hs ->]|[(Hs & i & Hi & ->)|[(Hs & Hnone & _)|(Hs & Hnone & _)]]].
    + (* a blank line *)
      rewrite Hs. cbn [truthy app]. rewrite Hsrc.
      rewrite (IH (pre ++ [line]) (results, seen, idx)).
      * rewrite Hlen'. reflexivity.
      * unfold echo_inv. rewrite <- Hsrc, Hlen'. split; [lia|]. split.
        -- intros j Hj. destruct (Nat.eq_dec j (List.length pre)) as [->|Hne].
           ++ rewrite Hnth. exact Hs.
           ++ apply Hblank. lia.
        -- intros j Hj. apply Hunseen. lia.
    + (* the line is found at its own place *)
      assert (He : eligible (pre ++ line :: rest) offset seen (strip line)
                     (List.length pre)).
      { split; [exact Hlen|]. split; [rewrite Hnth; reflexivity|].
        apply Hunseen. lia. }
      destruct Hi as (Hle & (Hi1 & Hi2 & Hi3) & Hmin).
      assert (i = List.length pre).
      { destruct (lt_eq_lt_dec i (List.length pre)) as [[Hlt|Heq]|Hgt];
          [|exact Heq|].
        - exfalso. apply Hs. rewrite <- Hi2. apply Hblank. lia.
        - exfalso. apply (Hmin (List.length pre)); [lia|exact He]. }
      subst i. rewrite Hnth.
      destruct (truthy (strip line)) eqn:Ht;
        [|apply truthy_false in Ht; congruence].
      rewrite Hsrc.
      rewrite (IH (pre ++ [line])
                 (results ++ [(offset + Z.of_nat (List.length pre) + 1, line)],
                  (offset + Z.of_nat (List.length pre) + 1) :: seen,
                  S (List.length pre))).
      * cbn [fst]. rewrite Hlen', <- app_assoc. reflexivity.
      * unfold echo_inv. rewrite <- Hsrc, Hlen'. split; [lia|]. split.
        -- intros j Hj. lia.
        -- intros j Hj [Heq|Hin]; [lia|]. apply (Hunseen j); [lia|exact Hin].
    + exfalso. apply (Hnone (List.length pre) Hidx).
      split; [exact Hlen|]. split; [rewrite Hnth; reflexivity|].
      apply Hunseen. lia.
    + exfalso. apply (Hnone (List.length pre)).
      split; [exact Hlen|]. split; [rewrite Hnth; reflexivity|].
      apply Hunseen. lia.
Qed.

End Echo.

(** X21. A faithful echo is reconciled exactly: when the response is the
    chunk itself, line by line, [find_lines] returns every line that is
    not blank once, in order, each with its own number. *)
Theorem find_lines_echo (content : str) (offset : Z) :
  find_lines content offset (splitlines false content)
  = numbered offset 0 (splitlines false content).
Proof.
  unfold find_lines.
  apply (echo_fold offset (splitlines false content) [] ([], [], 0%nat)).
  simpl. split; [lia|]. split; [intros j Hj; lia|]. intros j _ [].
Qed.

(** ** Chunker: a greedy partition of the lines *)

(** Every group of lines but the last is followed by a group whose first
    line did not fit into it. *)
Fixpoint tight_groups (groups : list (list str)) : Prop :=
  match groups with
  | g1 :: ((g2 :: _) as rest) =>
      match g2 with
      | [] => False
      | line :: _ => MAX_CHARS < len (concat g1) + len line
      end
      /\ tight_groups rest
  | _ => True
  end.

Lemma tight_groups_snoc (groups : list (list str)) (g : list str)
  (line : str) :
  tight_groups (groups ++ [g]) ->
  MAX_CHARS < len (concat g) + len line ->
  tight_groups ((groups ++ [g]) ++ [[line]]).
Proof.
  induction groups as [|g1 groups IH]; intros Ht Hc.
  - simpl. split; [exact Hc|exact I].
  - destruct groups as [|g2 groups].
    + simpl in *. destruct Ht as [H1 _]. split; [exact H1|].
      split; [exact Hc|exact I].
    + cbn [app] in Ht |- *. cbn [tight_groups] in Ht |- *.
      destruct Ht as [H1 H2]. split; [exact H1|]. apply IH; assumption.
Qed.

Lemma tight_groups_extend (groups : list (list str)) (g : list str)
  (line : str) :
  g <> [] -> tight_groups (groups ++ [g]) ->
  tight_groups (groups ++ [g ++ [line]]).
Proof.
  intros Hg. induction groups as [|g1 groups IH]; intros Ht.
  - exact I.
  - destruct groups as [|g2 groups].
    + simpl in *. destruct g as [|l0 g]; [congruence|]. exact Ht.
    + cbn [app] in Ht |- *. cbn [tight_groups] in Ht |- *.
      destruct Ht as [H1 H2]. split; [exact H1|]. apply IH. exact H2.
Qed.

(** The closed chunks are groups of the lines taken so far, the open one
    holds the rest of them, and the groups are tight. *)
Definition partition_inv (done : list str) (st : chunker_state) : Prop :=
  let '(chunks, cur, cur_len, start) := st in
  exists groups,
    map content chunks = map (@concat N) groups
    /\ done = concat groups ++ cur
    /\ cur_len = len (concat cur)
    /\ Forall (fun g => g <> []) groups
    /\ ((cur = [] /\ groups = [])
        \/ (cur <> [] /\ tight_groups (groups ++ [cur]))).

Lemma chunk_step_partition (rel : str) (done : list str) (i : Z)
  (line : str) (st : chunker_state) :
  partition_inv done st ->
  partition_inv (done ++ [line]) (chunk_step rel st (i, line)).
Proof.
  destruct st as [[[chunks cur] cur_len] start].
  intros (groups & Hc & Hdone & Hlen & Hne & Ht). unfold chunk_step.
  destruct ((cur_len + len line >? MAX_CHARS) && truthy cur) eqn:E.
  - apply andb_true_iff in E as [E1 E2]. zbool. apply truthy_true in E2.
    exists (groups ++ [cur]). split; [|split; [|split; [|split]]].
    + rewrite !map_app, Hc. reflexivity.
    + rewrite Hdone, concat_app. simpl. rewrite app_nil_r. reflexivity.
    + simpl. rewrite app_nil_r. reflexivity.
    + apply Forall_app. split; [exact Hne|]. constructor; [exact E2|constructor].
    + right. split; [discriminate|].
      destruct Ht as [[-> _]|[_ Ht]]; [congruence|].
      apply tight_groups_snoc; [exact Ht|lia].
  - exists groups. split; [exact Hc|]. split; [|split; [|split]].
    + rewrite Hdone, app_assoc. reflexivity.
    + rewrite concat_app, len_app. simpl. rewrite app_nil_r. lia.
    + exact Hne.
    + right. split; [destruct cur; discriminate|].
      destruct Ht as [[-> ->]|[Hcur Ht]]; [exact I|].
      apply tight_groups_extend; assumption.
Qed.

Lemma chunk_fold_partition (rel : str) (rest : list str) :
  forall (done : list str) (i : Z) (st : chunker_state),
    partition_inv done st ->
    partition_inv (done ++ rest)
      (fold_left (chunk_step rel) (enumerate_from i rest) st).
Proof.
  induction rest as [|line rest IH]; intros done i st H.
  - rewrite app_nil_r. exact H.
  - cbn [enumerate_from fold_left].
    replace (done ++ line :: rest) with ((done ++ [line]) ++ rest)
      by (rewrite <- app_assoc; reflexivity).
    apply IH. apply chunk_step_partition. exact H.
Qed.

(** X20. The Chunker is greedy and splits at line ends only: the chunks of
    a text that is not empty are, in order, the groups of a partition of
    its lines into runs that are not empty, and the first line of each
    group after the first did not fit into the group before it. *)
Theorem chunk_file_greedy_partition (rel text : str) :
  text <> [] ->
  exists groups,
    map content (chunk_file rel text) = map (@concat N) groups
    /\ concat groups = splitlines true text
    /\ Forall (fun g => g <> []) groups
    /\ tight_groups groups.
Proof.
  intros Hne.
  assert (HL : splitlines true text <> []).
  { intros E. apply splitlines_nil_inv in E. congruence. }
  destruct (Z_le_gt_dec (len text) MAX_CHARS) as [Hs|Hl].
  - rewrite chunk_file_small by exact Hs.
    exists [splitlines true text]. simpl.
    rewrite !app_nil_r, splitlines_keepends_concat.
    repeat split; try reflexivity.
    constructor; [exact HL|constructor].
  - rewrite chunk_file_large by lia.
    pose proof (chunk_fold_partition rel (splitlines true text) [] 0
                  ([], [], 0, 0)) as H.
    unfold enumerate.
    destruct (fold_left (chunk_step rel)
                (enumerate_from 0 (splitlines true text)) ([], [], 0, 0))
      as [[[chunks cur] cur_len] start].
    destruct H as (groups & Hc & Hdone & Hlen & Hg & Ht).
    { exists []. simpl. split; [reflexivity|]. split; [reflexivity|].
      split; [reflexivity|]. split; [constructor|]. left.
      split; reflexivity. }
    simpl in Hdone. unfold chunk_finish.
    destruct Ht as [[-> ->]|[Hcur Ht]].
    + simpl in Hdone. congruence.
    + destruct cur as [|l cur]; [congruence|]. cbn [truthy].
      exists (groups ++ [l :: cur]). split; [|split; [|split]].
      * rewrite !map_app, Hc. reflexivity.
      * rewrite concat_app. simpl. rewrite app_nil_r. symmetry. exact Hdone.
      * apply Forall_app. split; [exact Hg|].
        constructor; [discriminate|constructor].
      * exact Ht.
Qed.

(** X20 on a file of two short lines: one group. *)
Lemma chunk_file_greedy_partition_witness :
  let text := join [10%N] [of_string "a"; of_string "b"] in
  exists groups,
    map content (chunk_file (of_string "f.txt") text) = map (@concat N) groups
    /\ concat groups = splitlines true text
    /\ Forall (fun g => g <> []) groups
    /\ tight_groups groups.
Proof.
  cbv zeta.
  apply (chunk_file_greedy_partition (of_string "f.txt")
           (join [10%N] [of_string "a"; of_string "b"])).
  discriminate.
Defined.
